(** * string_id: the hash-verified interning store

    A shallow embedding of [map_database] (database.hpp), of the generic
    [basic_database::insert_prefix] and [strequal] (basic_database.hpp), of
    the default generation error handler (error.hpp) and of the retry loop
    [detail::try_generate] (generator.hpp), followed by the properties the
    specification states about them.

    Conventions of the embedding.
    - A [const char*] is the list of bytes readable from the pointer on; a
      read past the end of that list is a fault and yields [None].
    - A failed [assert] (and the undefined behaviour it guards) yields [None].
    - [STORAGE_T] is an unsigned integer type; only comparisons and [%] are
      applied to hash values, so they are binary naturals without a bound.
    - [std::size_t] counters are unbounded naturals and allocation always
      succeeds: a bucket array or a node that does not fit the address space
      makes [operator new] throw long before a counter could wrap.
    - [double] is IEEE 754 binary64 as the Standard Library specifies it
      ([spec_float] with 53 bits of precision, rounding to nearest even):
      [no_buckets_ * max_load_factor_] converts the bucket count to
      [double] and rounds the product, and [std::floor] is exact. The
      conversion of the floor to [std::size_t] is undefined when the value
      is negative, infinite or not a number; the embedding takes the
      threshold 0 there, and the results that depend on the value of the
      threshold are stated for positive finite factors.
    - The strings of this library are C strings: [FNV1aHash] stops at the
      first NUL and [lookup] returns a [const char*]. Results about stored
      content are stated for byte sequences without NUL ([nul_free]); the
      functions themselves are embedded for every buffer. *)

From Stdlib Require Import Ascii String NArith ZArith QArith Qround Qpower.
From Stdlib Require Import Lia Lqa Zdivisibility SpecFloat.
From stdpp Require Import base option list strings sorting.

Set Default Proof Using "Type".
Local Open Scope nat_scope.

#[global] Arguments Nat.modulo : simpl never.

(** * The program *)

(** ** Null-terminated byte strings, as <cstring> treats them *)

Module CStr.

Definition buffer := list ascii.

Definition NUL : ascii := Ascii.zero.

Definition is_nul (c : ascii) : bool := Ascii.eqb c NUL.

(** Bytes of a string literal, without terminator. *)
Definition bytes (s : string) : buffer := list_ascii_of_string s.

(** The [n] bytes [strncpy(dest, src, n)] writes to [dest]: the bytes of
    [src] up to its first NUL, then NUL padding. *)
Fixpoint strncpy (src : buffer) (n : nat) {struct n} : option buffer :=
  match n with
  | 0 => Some []
  | S n' =>
      match src with
      | [] => None
      | c :: src' =>
          if is_nul c then Some (replicate (S n') NUL)
          else (c ::.) <$> strncpy src' n'
      end
  end.

(** [strncmp(s1, s2, n) == 0]. *)
Fixpoint strncmp (s1 s2 : buffer) (n : nat) {struct n} : option bool :=
  match n with
  | 0 => Some true
  | S n' =>
      match s1, s2 with
      | c1 :: t1, c2 :: t2 =>
          if negb (Ascii.eqb c1 c2) then Some false
          else if is_nul c1 then Some true
          else strncmp t1 t2 n'
      | _, _ => None
      end
  end.

(** [std::string(s)] for a [const char* s]: the bytes before the first NUL. *)
Fixpoint std_string (s : buffer) : option buffer :=
  match s with
  | [] => None
  | c :: s' => if is_nul c then Some [] else (c ::.) <$> std_string s'
  end.

(** [s.c_str()] for a [std::string s]. *)
Definition c_str (s : buffer) : buffer := s ++ [NUL].

(** A byte sequence without NUL: the content of a C string. *)
Definition nul_free (s : buffer) : Prop := Forall (λ c, is_nul c = false) s.

End CStr.

Import CStr.

(** ** basic_database.hpp *)

Inductive insert_status : Type :=
| collision
| new_string
| old_string.

Definition insert_status_eqb (a b : insert_status) : bool :=
  match a, b with
  | collision, collision | new_string, new_string | old_string, old_string => true
  | _, _ => false
  end.

Definition STORAGE_T := N.
Bind Scope N_scope with STORAGE_T.

(** [strequal(prefix, str, length, other_str)]; [prefix] and [other_str] are
    null-terminated. *)
Fixpoint strequal (prefix str : buffer) (length : nat) (other_str : buffer)
  : option bool :=
  match prefix with
  | [] => None
  | p :: prefix' =>
      if is_nul p then strncmp str other_str length
      else
        match other_str with
        | [] => None
        | o :: other' =>
            if negb (Ascii.eqb p o) then Some false
            else strequal prefix' str length other'
        end
  end.

(** The interface of all databases: the two pure virtual members. *)
Class basic_database (DB : Type) : Type := {
  db_insert : DB → STORAGE_T → buffer → nat → option (insert_status * DB);
  db_lookup : DB → STORAGE_T → option buffer
}.

(** [basic_database::insert_prefix], the default implementation. *)
Definition default_insert_prefix {DB} `{basic_database DB}
    (db : DB) (hash prefix : STORAGE_T) (str : buffer) (length : nat)
  : option (insert_status * DB) :=
  p ← db_lookup db prefix;
  prefix_str ← std_string p;
  suffix ← std_string str;
  db_insert db hash (c_str (prefix_str ++ suffix)) (List.length prefix_str + length).

(** ** database.hpp: nodes and bucket chains *)

(** A node: the header fields and the bytes stored inline behind the header
    ([get_str] points at them); [next] is the tail of the chain. *)
Record node : Type := Node {
  node_length : nat;
  node_hash : STORAGE_T;
  get_str : buffer
}.

(** [node(str, length, h, next)] *)
Definition node_of (str : buffer) (length : nat) (h : STORAGE_T) : option node :=
  dest ← strncpy str length;
  Some (Node length h (dest ++ [NUL])).

(** [node(prefix, length_prefix, str, length_string, h, next)] *)
Definition node_of_prefix (prefix : buffer) (length_prefix : nat)
    (str : buffer) (length_string : nat) (h : STORAGE_T) : option node :=
  d1 ← strncpy prefix length_prefix;
  d2 ← strncpy str length_string;
  Some (Node (length_prefix + length_string) h (d1 ++ d2 ++ [NUL])).

Module node_list.

Abbreviation t := (list node).

(** [insert_pos_t]: either the node holding the hash, or the place where it
    belongs: the nodes in front of it and the nodes behind it. *)
Inductive insert_pos_t : Type :=
| pos_exists (cur : node)
| pos_between (before next : t).

Fixpoint insert_pos (l : t) (hash : STORAGE_T) : insert_pos_t :=
  match l with
  | [] => pos_between [] []
  | cur :: tl =>
      if (node_hash cur <? hash)%N then
        match insert_pos tl hash with
        | pos_exists c => pos_exists c
        | pos_between before next => pos_between (cur :: before) next
        end
      else if (node_hash cur =? hash)%N then pos_exists cur
      else pos_between [] l
  end.

Fixpoint find_node (l : t) (h : STORAGE_T) : option node :=
  match l with
  | [] => None
  | cur :: tl =>
      if (node_hash cur <? h)%N then find_node tl h
      else if (node_hash cur =? h)%N then Some cur
      else None
  end.

Definition lookup (l : t) (h : STORAGE_T) : option buffer :=
  get_str <$> find_node l h.

Definition insert (l : t) (hash : STORAGE_T) (str : buffer) (length : nat)
  : option (insert_status * t) :=
  match insert_pos l hash with
  | pos_exists cur =>
      same ← strncmp str (get_str cur) length;
      Some (if same : bool then old_string else collision, l)
  | pos_between before next =>
      n ← node_of str length hash;
      Some (new_string, before ++ n :: next)
  end.

Definition insert_prefix (l prefix_bucket : t) (prefix hash : STORAGE_T)
    (str : buffer) (length : nat) : option (insert_status * t) :=
  prefix_node ← find_node prefix_bucket prefix;
  match insert_pos l hash with
  | pos_exists cur =>
      same ← strequal (get_str prefix_node) str length (get_str cur);
      Some (if same : bool then old_string else collision, l)
  | pos_between before next =>
      n ← node_of_prefix (get_str prefix_node) (node_length prefix_node)
             str length hash;
      Some (new_string, before ++ n :: next)
  end.

(** One turn of the loop of [rehash]: link [cur] into its new bucket. *)
Definition relink (size : nat) (buckets : list t) (cur : node)
  : option (list t) :=
  if size is 0 then None
  else
    let i := N.to_nat (node_hash cur) mod size in
    b ← buckets !! i;
    match insert_pos b (node_hash cur) with
    | pos_exists _ => None
    | pos_between before next => Some (<[i := before ++ cur :: next]> buckets)
    end.

(** [rehash(buckets, size)]: the new bucket array once every node of the
    list has been linked into it. *)
Fixpoint rehash (l : t) (buckets : list t) (size : nat) : option (list t) :=
  match l with
  | [] => Some buckets
  | cur :: next => buckets' ← relink size buckets cur; rehash next buckets' size
  end.

End node_list.

(** ** database.hpp: the hash table *)

(** [double]: IEEE 754 binary64. *)
Abbreviation double := spec_float.

Declare Scope double_scope.
Delimit Scope double_scope with double.
Bind Scope double_scope with spec_float.

(** The product of two [double]s, rounded to nearest even. *)
Definition double_mul : double → double → double := SFmul 53 1024.

(** The conversion of a [std::size_t] to [double], rounded to nearest even
    when the number needs more than 53 bits. *)
Definition double_of_size (n : nat) : double :=
  binary_normalize 53 1024 (Z.of_nat n) 0 false.

(** [static_cast<std::size_t>(std::floor(x))]: the floor of [m * 2 ^ e] is
    [m] shifted by [e] bits. The conversion is undefined for a negative,
    infinite or NaN [x]; 0 stands for it. *)
Definition floor_to_size (x : double) : nat :=
  match x with
  | S754_finite false m e => Z.to_nat (Z.shiftl (Zpos m) e)
  | _ => 0
  end.

(** The [double] nearest to [m * 2 ^ e]; it is exact when [m] has at most
    53 bits. *)
Definition dyadic (m e : Z) : double := binary_normalize 53 1024 m e false.

(** The literal [1.0], the default [max_load_factor]. *)
Notation "1" := (S754_finite false 4503599627370496 (-52)) : double_scope.

Record map_database : Type := MapDatabase {
  buckets_ : list node_list.t;
  no_items_ : nat;
  no_buckets_ : nat;
  max_load_factor_ : double;
  next_resize_ : nat
}.

(** [static_cast<std::size_t>(std::floor(no_buckets * max_load_factor))] *)
Definition resize_threshold (no_buckets : nat) (max_load_factor : double) : nat :=
  floor_to_size (double_mul (double_of_size no_buckets) max_load_factor).

(** [map_database(size, max_load_factor)] *)
Definition new_map_database (size : nat) (max_load_factor : double)
  : map_database :=
  MapDatabase (replicate size []) 0 size max_load_factor
    (resize_threshold size max_load_factor).

Definition growth_factor : nat := 2.

(** The loop of [map_database::rehash] over the old buckets. *)
Fixpoint rehash_lists (lists : list node_list.t) (buckets : list node_list.t)
    (new_size : nat) : option (list node_list.t) :=
  match lists with
  | [] => Some buckets
  | l :: rest =>
      buckets' ← node_list.rehash l buckets new_size;
      rehash_lists rest buckets' new_size
  end.

Definition rehash (db : map_database) : option map_database :=
  let new_size := growth_factor * no_buckets_ db in
  buckets ← rehash_lists (buckets_ db) (replicate new_size []) new_size;
  Some (MapDatabase buckets (no_items_ db) new_size (max_load_factor_ db)
          (resize_threshold new_size (max_load_factor_ db))).

(** [if (no_items_ + 1 >= next_resize_) rehash();] *)
Definition grow_if_needed (db : map_database) : option map_database :=
  if next_resize_ db <=? no_items_ db + 1 then rehash db else Some db.

(** [hash % no_buckets_]; the remainder by zero is undefined. *)
Definition bucket_of (hash : STORAGE_T) (no_buckets : nat) : option nat :=
  if no_buckets is 0 then None else Some (N.to_nat hash mod no_buckets).

(** The tail of [insert] and [insert_prefix]: store the bucket back and
    count the item if it is new. *)
Definition finish (db : map_database) (i : nat)
    (r : insert_status * node_list.t) : insert_status * map_database :=
  (r.1,
   MapDatabase (<[i := r.2]> (buckets_ db))
     (if insert_status_eqb r.1 new_string then no_items_ db + 1 else no_items_ db)
     (no_buckets_ db) (max_load_factor_ db) (next_resize_ db)).

Definition insert (db : map_database) (hash : STORAGE_T) (str : buffer)
    (length : nat) : option (insert_status * map_database) :=
  db1 ← grow_if_needed db;
  i ← bucket_of hash (no_buckets_ db1);
  b ← buckets_ db1 !! i;
  r ← node_list.insert b hash str length;
  Some (finish db1 i r).

Definition insert_prefix (db : map_database) (hash prefix : STORAGE_T)
    (str : buffer) (length : nat) : option (insert_status * map_database) :=
  db1 ← grow_if_needed db;
  i ← bucket_of hash (no_buckets_ db1);
  b ← buckets_ db1 !! i;
  j ← bucket_of prefix (no_buckets_ db1);
  pb ← buckets_ db1 !! j;
  r ← node_list.insert_prefix b pb prefix hash str length;
  Some (finish db1 i r).

Definition lookup (db : map_database) (hash : STORAGE_T) : option buffer :=
  i ← bucket_of hash (no_buckets_ db);
  b ← buckets_ db !! i;
  node_list.lookup b hash.

#[export] Instance map_database_basic : basic_database map_database :=
  {| db_insert := insert; db_lookup := lookup |}.

(** The stored entries, bucket after bucket. *)
Definition entries (db : map_database) : list node := mjoin (buckets_ db).

(** ** error.hpp and generator.hpp: the generation retry protocol *)

Definition no_tries_generation : nat := 8.

(** The exception of error.hpp a handler may throw. *)
Inductive exception : Type :=
| generation_error (generator_name : string).

(** A handler returns whether to retry, or throws. *)
Definition generation_error_handler : Type :=
  nat → string → STORAGE_T → buffer → exception + bool.

Definition default_generation_error_handler : generation_error_handler :=
  λ no generator_name _ _,
    if no_tries_generation <=? no then inl (generation_error generator_name)
    else inr true.

Section try_generate.

(** The string identifier type, with the two members the loop reads. Its
    header is not part of the sources at hand, so the constructor
    [STRID_T(prefix, generator(), status)] is a parameter: one attempt runs
    the generator, inserts the candidate and reports the insert status,
    changing the state [G] of generator and database. *)
Variables (STRID_T G : Type).
Variable hash_code : STRID_T → STORAGE_T.
Variable string_of : STRID_T → buffer.
Variable attempt : G → insert_status * STRID_T * G.

(** The installed handler, [get_generation_error_handler()]. *)
Variable handler : generation_error_handler.

Inductive outcome : Type :=
| returned (result : STRID_T) (g : G)
| threw (e : exception) (g : G)
| out_of_fuel.

Definition handle_generation_error (counter : nat) (name : string)
    (result : STRID_T) : exception + bool :=
  handler counter name (hash_code result) (string_of result).

(** The [for] loop of [try_generate], entered with the outcome of the
    latest attempt; [fuel] bounds the number of further attempts. *)
Fixpoint try_generate_loop (fuel : nat) (name : string) (counter : nat)
    (status : insert_status) (result : STRID_T) (g : G) : outcome :=
  if insert_status_eqb status new_string then returned result g
  else
    match handle_generation_error counter name result with
    | inl e => threw e g
    | inr false => returned result g
    | inr true =>
        match fuel with
        | 0 => out_of_fuel
        | S fuel' =>
            let '(status', result', g') := attempt g in
            try_generate_loop fuel' name (S counter) status' result' g'
        end
    end.

Definition try_generate (fuel : nat) (name : string) (g : G) : outcome :=
  let '(status, result, g') := attempt g in
  try_generate_loop fuel name 1 status result g'.

(** The state after [k] attempts. *)
Fixpoint after_attempts (k : nat) (g : G) : G :=
  match k with
  | 0 => g
  | S k' => after_attempts k' (attempt g).2
  end.

End try_generate.

Arguments returned {STRID_T G}.
Arguments threw {STRID_T G}.
Arguments out_of_fuel {STRID_T G}.

(** ** hash.hpp *)

Definition FNV_32_BASIS : Z := 0x811c9dc5.
Definition FNV_32_PRIME : Z := 0x01000193.
Definition fnv_basis : Z := 14695981039346656037.
Definition fnv_prime : Z := 1099511628211.

(** [(T)c] for a [char c] and an unsigned integer type [T] of [w] bits.
    Whether plain [char] is signed is the implementation's choice, so it
    is a parameter: a signed [char] above 127 is negative and wraps. *)
Definition char_to_T (char_signed : bool) (w : Z) (c : ascii) : Z :=
  let v := Z.of_N (N_of_ascii c) in
  if char_signed && (128 <=? v)%Z then ((v - 256) mod 2 ^ w)%Z else v.

(** [FNV1aHash<T>(buf, hval, prime)] for [T] of [w] bits. The multiplier is
    [FNV_32_PRIME] whatever [prime] is, as in the source. *)
Fixpoint FNV1aHash (char_signed : bool) (w : Z) (buf : buffer)
    (hval prime : Z) : option Z :=
  match buf with
  | [] => None
  | c :: buf' =>
      if is_nul c then Some hval
      else
        FNV1aHash char_signed w buf'
          ((Z.lxor hval (char_to_T char_signed w c) * FNV_32_PRIME) mod 2 ^ w)%Z
          prime
  end.

(** [sid_hash(str, res, hash)] for a 64 bit [res]; [hash] is not used. *)
Definition sid_hash64 (char_signed : bool) (str : buffer) (hash : Z)
  : option Z :=
  FNV1aHash char_signed 64 str fnv_basis fnv_prime.

(** [sid_hash(str, res, hash)] for a 32 bit [res]; [hash] is not used. *)
Definition sid_hash32 (char_signed : bool) (str : buffer) (hash : Z)
  : option Z :=
  FNV1aHash char_signed 32 str FNV_32_BASIS FNV_32_PRIME.

(** ** generator.hpp: [to_string] and the counter generator *)

(** ['0' + d] for a digit value [d]. *)
Definition digit_char (d : N) : ascii := ascii_of_N (48 + d).

(** The [do] loop of [to_string]. [room] is [cur - begin], the bytes of the
    array still free in front of [cur]; [written] are the bytes from [cur]
    to [end]. Writing in front of [begin] is a fault. *)
Fixpoint write_digits (room : nat) (s : N) (i : nat) (written : buffer)
  : option (nat * nat * buffer) :=
  match room with
  | 0 => None
  | S room' =>
      let written' := digit_char (s mod 10) :: written in
      let s' := (s / 10)%N in
      if (s' =? 0)%N then Some (room', S i, written')
      else write_digits room' s' (S i) written'
  end.

(** [for (; cur - 1 != begin && i < length; ++i) *--cur = '0';] *)
Fixpoint pad_zeros (room : nat) (i length : nat) (written : buffer)
  : option (nat * nat * buffer) :=
  if negb (room =? 1) && (i <? length) then
    match room with
    | 0 => None
    | S room' => pad_zeros room' (S i) length (digit_char 0 :: written)
    end
  else Some (room, i, written).

(** [to_string(s, begin, end, length)] for an array of [end - begin =
    max_size] bytes: the bytes of the [string_info] it returns. *)
Definition to_string (s : N) (max_size : nat) (length : nat) : option buffer :=
  r ← write_digits max_size s 0 [];
  let '(room, i, written) := r in
  if i <? length then
    r' ← pad_zeros room i length written; Some r'.2
  else if negb (length =? 0) && (length <? i) then
    Some (drop (i - length) written)
  else Some written.

(** [counter_generator]: the members the candidate depends on. [state] is
    [unsigned long long], taken as 64 bits wide. *)
Record counter_generator : Type := CounterGenerator {
  counter_ : N;
  length_ : nat
}.

Definition state_modulus : N := 2 ^ 64.

(** [4 * sizeof(state)] *)
Definition max_size : nat := 32.

(** The lambda of [counter_generator::operator()]:
    [to_string(counter_++, string, string + max_size, length_)]. *)
Definition next_candidate (g : counter_generator)
  : option buffer * counter_generator :=
  (to_string (counter_ g) max_size (length_ g),
   CounterGenerator ((counter_ g + 1) mod state_modulus) (length_ g)).

(** [counter_generator::discard(n)] *)
Definition discard (n : N) (g : counter_generator) : counter_generator :=
  CounterGenerator ((counter_ g + n) mod state_modulus) (length_ g).

(** ** generator.hpp, generator.cpp: character tables and the random
    generator *)

Record character_table : Type := CharacterTable {
  characters : buffer;
  no_characters : nat
}.

(** The array [table] of generator.cpp, with its terminator. *)
Definition table : buffer :=
  bytes "ABCDEFGHIJKLMNOPQRSTUVWXYZabcdefghijklmnopqrstuvwxzy0123456789"
    ++ [NUL].

(** [sizeof(table) - 1] and [sizeof(table) - 1 - 10] *)
Definition alnum : character_table := CharacterTable table (List.length table - 1).
Definition alpha : character_table := CharacterTable table (List.length table - 1 - 10).

(** The lambda of [random_generator::operator()]. The random number
    generator and the distribution are outside the sources: [draws] are the
    values [dist(state_)] returns, one for each of the [Length]
    characters. Reading outside the table array is a fault. *)
Fixpoint random_candidate (t : character_table) (draws : list nat)
  : option buffer :=
  match draws with
  | [] => Some []
  | k :: draws' =>
      c ← characters t !! k;
      rest ← random_candidate t draws';
      Some (c :: rest)
  end.

(** * The vocabulary of the properties *)

(** ** Invariants of the chains and of the bucket array *)

Definition hashes (l : list node) : list STORAGE_T := node_hash <$> l.

Definition hash_lt (a b : node) : Prop := (node_hash a < node_hash b)%N.

(** A chain is strictly increasing by hash. *)
Definition chain_sorted (l : node_list.t) : Prop := StronglySorted hash_lt l.

(** A node holds a C string of [node_length] bytes and its terminator. *)
Definition node_ok (n : node) : Prop :=
  ∃ s, nul_free s ∧ get_str n = c_str s ∧ node_length n = length s.

Definition chain_ok (size i : nat) (l : node_list.t) : Prop :=
  chain_sorted l ∧
  Forall (λ n, N.to_nat (node_hash n) mod size = i ∧ node_ok n) l.

Record array_ok (size : nat) (bs : list node_list.t) : Prop := {
  array_size : 0 < size;
  array_length : length bs = size;
  array_chain : ∀ i l, bs !! i = Some l → chain_ok size i l;
  array_nodup : NoDup (hashes (mjoin bs))
}.

Record wf (db : map_database) : Prop := {
  wf_array : array_ok (no_buckets_ db) (buckets_ db);
  wf_items : no_items_ db = length (entries db);
  wf_resize :
    next_resize_ db = resize_threshold (no_buckets_ db) (max_load_factor_ db)
}.

(** What a caller may pass as [(str, length)]: [length] readable bytes that
    form a C string content. *)
Definition valid_input (str : buffer) (length : nat) : Prop :=
  length ≤ List.length str ∧ nul_free (take length str).

(** ** Sequences of calls *)

Inductive call : Type :=
| call_insert (hash : STORAGE_T) (str : buffer) (length : nat)
| call_insert_prefix (hash prefix : STORAGE_T) (str : buffer) (length : nat).

Definition run_call (db : map_database) (c : call)
  : option (insert_status * map_database) :=
  match c with
  | call_insert hash str length => insert db hash str length
  | call_insert_prefix hash prefix str length =>
      insert_prefix db hash prefix str length
  end.

(** The table after a sequence of calls, each of which completes. *)
Fixpoint run_calls (db : map_database) (cs : list call) : option map_database :=
  match cs with
  | [] => Some db
  | c :: cs' => r ← run_call db c; run_calls r.2 cs'
  end.

Definition valid_call (c : call) : Prop :=
  match c with
  | call_insert _ str length | call_insert_prefix _ _ str length =>
      valid_input str length
  end.

(** The states a table can be in: built with at least one bucket, then used
    through [insert] and [insert_prefix] with C strings. *)
Definition reachable (db : map_database) : Prop :=
  ∃ size f cs,
    0 < size ∧ Forall valid_call cs ∧
    run_calls (new_map_database size f) cs = Some db.




(** The hash a call is about. *)
Definition call_hash (c : call) : STORAGE_T :=
  match c with
  | call_insert hash _ _ | call_insert_prefix hash _ _ _ => hash
  end.

(** ** Counters *)

(** [item_count / bucket_count] *)
Definition load_factor (db : map_database) : Q :=
  inject_Z (Z.of_nat (no_items_ db)) / inject_Z (Z.of_nat (no_buckets_ db)).

(** The number a finite [double] stands for. *)
Definition double_value (x : double) : Q :=
  match x with
  | S754_finite s m e => inject_Z (if s then Zneg m else Zpos m) * 2 ^ e
  | _ => 0
  end.

Definition positive_finite (x : double) : Prop :=
  match x with
  | S754_finite false _ _ => True
  | _ => False
  end.

(** The bucket count and its product with the factor are below [2 ^ 53]:
    the count converts to [double] as it is, and the rounded product is
    within one of the exact product. *)
Definition exact_range (no_buckets : nat) (f : double) : Prop :=
  (Z.of_nat no_buckets < 2 ^ 53)%Z ∧
  (inject_Z (Z.of_nat no_buckets) * double_value f < 2 ^ 53)%Q.

(** What the counters of a table built with [b] buckets and load factor [f]
    satisfy between calls. *)
Definition counts_inv (b : nat) (f : double) (db : map_database) : Prop :=
  max_load_factor_ db = f ∧
  next_resize_ db = resize_threshold (no_buckets_ db) f ∧
  0 < no_buckets_ db ∧ b ≤ no_buckets_ db ∧
  (inject_Z (Z.of_nat (no_items_ db))
   <= inject_Z (Z.of_nat (no_buckets_ db)) * double_value f)%Q.


(** ** Decimal strings *)

Definition is_digit (c : ascii) : Prop := (48 ≤ N_of_ascii c ≤ 57)%N.

Definition digit_value (c : ascii) : N := N_of_ascii c - 48.

(** The number a string of digits denotes, most significant digit first. *)
Definition decimal_value (b : buffer) : N :=
  fold_left (λ acc c, 10 * acc + digit_value c)%N b 0%N.

(** [10 ^ k] for a number [k] of digits. *)
Definition pow10 (k : nat) : N := 10 ^ N.of_nat k.

(** No leading zero, but for the number 0 itself. *)
Definition canonical (b : buffer) : Prop :=
  b = [digit_char 0] ∨ ∃ c rest, b = c :: rest ∧ digit_value c ≠ 0%N.

(** A letter or a digit. *)
Definition is_alnumb (c : ascii) : bool :=
  let v := N_of_ascii c in
  ((48 <=? v) && (v <=? 57) || (65 <=? v) && (v <=? 90)
   || (97 <=? v) && (v <=? 122))%N.

Definition is_alphab (c : ascii) : bool :=
  let v := N_of_ascii c in
  ((65 <=? v) && (v <=? 90) || (97 <=? v) && (v <=? 122))%N.

(** ** Concrete inputs *)

(** The literal [0.3]: the [double] nearest to 3/10, just below it. *)
Definition three_tenths : double := S754_finite false 5404319552844595 (-54).


(** A table reached by three inserts, one of which made it grow. *)
Definition small_table_calls : list call :=
  [call_insert 5 (bytes "ab") 2; call_insert 2 (bytes "cd") 2;
   call_insert 9 (bytes "e") 1].

(** A table holding ["X"] under hash 1. *)
Definition prefix_table_calls : list call := [call_insert 1 (bytes "X") 1].

(** Two tables that hold ["Xa"] under hash 2 and differ in the bucket of the
    prefix hash 1 alone: it holds ["X"] in the first, ["Y"] in the second. *)
Definition table_X_calls : list call :=
  [call_insert 1 (bytes "X") 1; call_insert 2 (bytes "Xa") 2].
Definition table_Y_calls : list call :=
  [call_insert 1 (bytes "Y") 1; call_insert 2 (bytes "Xa") 2].

(** A generator that counts its attempts and always finds its candidate
    stored already. *)
Definition stuck_generator (g : nat) : insert_status * nat * nat :=
  (old_string, g, S g).

(** A generator whose first two candidates are stored already and whose
    later ones are new. *)
Definition third_time_lucky (g : nat) : insert_status * nat * nat :=
  (if g <? 2 then old_string else new_string, g, S g).

(** A handler a user may install: always try again. *)
Definition always_retry : generation_error_handler := λ _ _ _ _, inr true.

#[export] Instance valid_call_dec c : Decision (valid_call c).
Proof. destruct c; unfold valid_call, valid_input, nul_free; apply _. Defined.

(** Decidable side conditions on concrete inputs, by evaluation. *)
Ltac by_decide := apply (bool_decide_unpack _); vm_compute; exact Logic.I.

(** * Facts *)

(** ** Small runs, by evaluation *)

Example run_insert_lookup :
  (r ← insert (new_map_database 4 1) 7%N (bytes "abc") 3; lookup r.2 7%N)
  = Some (bytes "abc" ++ [NUL]).
Proof. vm_compute. reflexivity. Qed.

(** ** Facts about the <cstring> functions *)

Section cstr_facts.
Implicit Types (s t src : buffer) (n : nat) (c : ascii).

Lemma is_nul_true c : is_nul c = true → c = NUL.
Proof. unfold is_nul. intros H. by apply Ascii.eqb_eq. Qed.

Lemma ascii_eqb_refl c : Ascii.eqb c c = true.
Proof. by apply Ascii.eqb_eq. Qed.

Lemma nul_free_app s t : nul_free (s ++ t) ↔ nul_free s ∧ nul_free t.
Proof. unfold nul_free. apply Forall_app. Qed.

(** On a NUL-free source of at least [n] bytes, [strncpy] is [memcpy]. *)
Lemma strncpy_take src n :
  n ≤ length src → nul_free (take n src) → strncpy src n = Some (take n src).
Proof.
  revert src. induction n as [|n IH]; intros [|c src] Hlen Hfree; simpl in *;
    try done; try lia.
  apply Forall_cons in Hfree as [Hc Hfree]. rewrite Hc.
  rewrite IH; [done | lia | done].
Qed.

(** A NUL-free prefix is copied as it is. *)
Lemma strncpy_app s src n :
  nul_free s → strncpy (s ++ src) (length s + n) = (s ++.) <$> strncpy src n.
Proof.
  intros Hs. induction Hs as [|c s Hc Hs IH]; simpl.
  - by destruct (strncpy src n).
  - rewrite Hc, IH. by destruct (strncpy src n).
Qed.

(** What follows the first NUL of the source is never read. *)
Lemma strncpy_upto_nul s t1 t2 n :
  strncpy (s ++ NUL :: t1) n = strncpy (s ++ NUL :: t2) n.
Proof.
  revert n. induction s as [|c s IH]; intros [|n]; simpl; try done.
  destruct (is_nul c); [done|]. by rewrite IH.
Qed.

Lemma strncmp_upto_nul s t1 t2 other n :
  strncmp (s ++ NUL :: t1) other n = strncmp (s ++ NUL :: t2) other n.
Proof.
  revert other n. induction s as [|c s IH]; intros [|o other] [|n]; simpl; try done.
  destruct (negb (Ascii.eqb c o)); [done|]. destruct (is_nul c); [done|]. apply IH.
Qed.

(** The comparison of [insert]: the [n] bytes offered are a prefix of the
    stored string. *)
Lemma strncmp_prefix src n s :
  n ≤ length src → nul_free (take n src) → nul_free s →
  strncmp src (s ++ [NUL]) n = Some (bool_decide (take n src `prefix_of` s)).
Proof.
  revert src s. induction n as [|n IH]; intros src s Hlen Hfree Hs.
  - simpl. done.
  - destruct src as [|c src]; simpl in Hlen; [lia|].
    rewrite firstn_cons in Hfree |- *.
    apply Forall_cons in Hfree as [Hc Hfree].
    destruct s as [|o s].
    + cbn [strncmp app]. assert (Ascii.eqb c NUL = false) as -> by done. cbn [negb].
      rewrite bool_decide_eq_false_2; [done|]. by intros ?%prefix_nil_inv.
    + apply Forall_cons in Hs as [Ho Hs]. cbn [strncmp app].
      destruct (Ascii.eqb c o) eqn:E; cbn [negb].
      * apply Ascii.eqb_eq in E as ->. rewrite Hc, IH; [|lia|done|done].
        f_equal. apply bool_decide_ext. split.
        -- by apply prefix_cons.
        -- by intros ?%prefix_cons_inv_2.
      * rewrite bool_decide_eq_false_2; [done|].
        intros ?%prefix_cons_inv_1. subst. by rewrite ascii_eqb_refl in E.
Qed.

(** [strequal] is the comparison of [insert] on the concatenation. *)
Lemma strequal_strncmp s t str n other :
  nul_free s →
  strequal (s ++ NUL :: t) str n other = strncmp (s ++ str) other (length s + n).
Proof.
  intros Hs. revert other. induction Hs as [|c s Hc Hs IH]; intros other; simpl.
  - done.
  - rewrite Hc. destruct other as [|o other]; [done|].
    destruct (negb (Ascii.eqb c o)); [done|]. apply IH.
Qed.

Lemma std_string_nul_free s t : nul_free s → std_string (s ++ NUL :: t) = Some s.
Proof.
  intros Hs. induction Hs as [|c s Hc Hs IH]; simpl; [done|]. by rewrite Hc, IH.
Qed.

Lemma std_string_inv src s :
  std_string src = Some s → nul_free s ∧ ∃ t, src = s ++ NUL :: t.
Proof.
  revert s. induction src as [|c src IH]; intros s; simpl; [done|].
  destruct (is_nul c) eqn:Hc.
  - intros [= <-]. split; [constructor|]. apply is_nul_true in Hc as ->. by exists src.
  - destruct (std_string src) as [s'|]; [|done]. intros [= <-].
    destruct (IH s' eq_refl) as [Hs' [t ->]]. split; [by constructor|]. by exists t.
Qed.

End cstr_facts.

Section chain_facts.
Implicit Types (l b n : node_list.t) (h : STORAGE_T) (c x : node).

Lemma insert_pos_exists l h c :
  node_list.insert_pos l h = node_list.pos_exists c →
  c ∈ l ∧ node_hash c = h ∧ node_list.find_node l h = Some c.
Proof.
  induction l as [|cur tl IH]; simpl; [done|].
  destruct (N.ltb_spec (node_hash cur) h) as [Hlt|Hge].
  - destruct (node_list.insert_pos tl h) eqn:E; [|done].
    intros [= <-]. destruct IH as (? & ? & ?); [done|]. by rewrite elem_of_cons; auto.
  - destruct (N.eqb_spec (node_hash cur) h) as [Heq|Hne]; [|done].
    intros [= <-]. by rewrite elem_of_cons; auto.
Qed.

Lemma insert_pos_between l h b n :
  node_list.insert_pos l h = node_list.pos_between b n →
  l = b ++ n ∧ Forall (λ x, (node_hash x < h)%N) b ∧
  (∀ x, head n = Some x → (h < node_hash x)%N) ∧
  node_list.find_node l h = None.
Proof.
  revert b. induction l as [|cur tl IH]; simpl; intros b.
  - intros [= <- <-]. by repeat split.
  - destruct (N.ltb_spec (node_hash cur) h) as [Hlt|Hge].
    + destruct (node_list.insert_pos tl h) as [|b' n'] eqn:E; [done|].
      intros [= <- <-]. destruct (IH b' eq_refl) as (-> & ? & ? & ?).
      repeat split; auto.
    + destruct (N.eqb_spec (node_hash cur) h) as [Heq|Hne]; [done|].
      intros [= <- <-]. repeat split; auto.
      simpl. intros x [= <-]. lia.
Qed.

Lemma chain_sorted_head l x y :
  chain_sorted (x :: l) → y ∈ l → (node_hash x < node_hash y)%N.
Proof.
  intros [Hall _]%StronglySorted_cons Hy. by eapply Forall_forall in Hall.
Qed.

(** In a sorted chain [find_node] finds every node by its hash. *)
Lemma find_node_elem_of l x :
  chain_sorted l → x ∈ l → node_list.find_node l (node_hash x) = Some x.
Proof.
  induction l as [|cur tl IH]; intros Hs Hx; [by apply elem_of_nil in Hx|].
  simpl. apply elem_of_cons in Hx as [->|Hx].
  - rewrite N.ltb_irrefl, N.eqb_refl. done.
  - pose proof (chain_sorted_head _ _ _ Hs Hx) as Hlt.
    apply N.ltb_lt in Hlt as ->. apply IH; [|done].
    by apply StronglySorted_cons in Hs as [_ ?].
Qed.

Lemma find_node_Some l h x :
  node_list.find_node l h = Some x → x ∈ l ∧ node_hash x = h.
Proof.
  induction l as [|cur tl IH]; simpl; [done|].
  destruct (N.ltb_spec (node_hash cur) h).
  - intros [? ?]%IH. by rewrite elem_of_cons; auto.
  - destruct (N.eqb_spec (node_hash cur) h); [|done].
    intros [= <-]. by rewrite elem_of_cons; auto.
Qed.

(** In a sorted chain the place [insert_pos] reports is free. *)
Lemma insert_pos_between_absent l h b n :
  chain_sorted l → node_list.insert_pos l h = node_list.pos_between b n →
  h ∉ hashes l.
Proof.
  intros Hs Hpos [x [-> Hx]]%list_elem_of_fmap.
  apply insert_pos_between in Hpos as (_ & _ & _ & Hfind).
  by rewrite (find_node_elem_of _ _ Hs Hx) in Hfind.
Qed.

Lemma insert_pos_absent l h :
  h ∉ hashes l → ∃ b n, node_list.insert_pos l h = node_list.pos_between b n.
Proof.
  intros Habs. destruct (node_list.insert_pos l h) as [c|b n] eqn:E; [|eauto].
  apply insert_pos_exists in E as (Hc & <- & _).
  destruct Habs. apply list_elem_of_fmap. eauto.
Qed.

(** Splicing a node in at the place [insert_pos] reports keeps the chain
    sorted. *)
Lemma chain_sorted_splice l b n x :
  chain_sorted l →
  node_list.insert_pos l (node_hash x) = node_list.pos_between b n →
  chain_sorted (b ++ x :: n).
Proof.
  intros Hs Hpos.
  apply insert_pos_between in Hpos as (-> & Hb & Hn & _).
  apply StronglySorted_app in Hs as (Hbn & Hsb & Hsn).
  assert (Forall (hash_lt x) n) as Hxn.
  { destruct n as [|y n]; [constructor|].
    specialize (Hn y eq_refl). constructor; [done|].
    apply StronglySorted_cons in Hsn as [Hall _].
    eapply Forall_impl; [exact Hall|]. unfold hash_lt. intros; simpl in *. lia. }
  apply StronglySorted_app_2; [|done|by apply StronglySorted_cons].
  intros x1 x2 Hx1 [->|Hx2]%elem_of_cons.
  - by eapply Forall_forall in Hb.
  - by apply Hbn.
Qed.

End chain_facts.

Section array_facts.
Implicit Types (bs : list node_list.t) (l b n : node_list.t) (x : node).

Lemma array_elem size bs x :
  array_ok size bs → x ∈ mjoin bs →
  ∃ l, bs !! (N.to_nat (node_hash x) mod size) = Some l ∧ x ∈ l ∧ node_ok x.
Proof.
  intros Hok (l & Hx & [i Hi]%list_elem_of_lookup)%list_elem_of_join.
  destruct (array_chain _ _ Hok i l Hi) as [_ Hall].
  apply (proj1 (Forall_forall _ _)) with (x := x) in Hall as [<- ?]; [|exact Hx]. eauto.
Qed.

Lemma array_bucket size bs k :
  array_ok size bs → ∃ l, bs !! (k mod size) = Some l ∧ chain_ok size (k mod size) l.
Proof.
  intros Hok. destruct (lookup_lt_is_Some_2 bs (k mod size)) as [l Hl].
  - rewrite (array_length _ _ Hok). apply Nat.mod_upper_bound.
    pose proof (array_size _ _ Hok). lia.
  - exists l. split; [done|]. by eapply array_chain.
Qed.

Lemma array_lookup_elem size bs i l x :
  array_ok size bs → bs !! i = Some l → x ∈ l → x ∈ mjoin bs.
Proof.
  intros _ Hi Hx. apply list_elem_of_join. exists l. split; [done|].
  apply list_elem_of_lookup. eauto.
Qed.

(** A hash missing from its own bucket is missing from the table. *)
Lemma array_absent size bs h l :
  array_ok size bs → bs !! (N.to_nat h mod size) = Some l →
  h ∉ hashes l → h ∉ hashes (mjoin bs).
Proof.
  intros Hok Hl Habs [x [-> Hx]]%list_elem_of_fmap.
  destruct (array_elem _ _ _ Hok Hx) as (l' & Hl' & Hxl' & _).
  rewrite Hl in Hl'. injection Hl' as <-.
  apply Habs, list_elem_of_fmap. eauto.
Qed.

Lemma join_insert_cons bs i l l' x :
  bs !! i = Some l → l' ≡ₚ x :: l → mjoin (<[i:=l']> bs) ≡ₚ x :: mjoin bs.
Proof.
  intros Hi Hperm.
  rewrite insert_take_drop by (by eapply lookup_lt_Some).
  rewrite <-(take_drop_middle bs i l Hi) at 3.
  rewrite !join_app. simpl. rewrite Hperm. simpl.
  symmetry. apply Permutation_middle.
Qed.

(** Linking a node into its bucket at the place [insert_pos] reports. *)
Lemma array_splice size bs x l b n :
  array_ok size bs → node_ok x →
  bs !! (N.to_nat (node_hash x) mod size) = Some l →
  node_list.insert_pos l (node_hash x) = node_list.pos_between b n →
  array_ok size (<[N.to_nat (node_hash x) mod size := b ++ x :: n]> bs) ∧
  mjoin (<[N.to_nat (node_hash x) mod size := b ++ x :: n]> bs) ≡ₚ x :: mjoin bs.
Proof.
  intros Hok Hx Hl Hpos.
  destruct (array_chain _ _ Hok _ _ Hl) as [Hsorted Hall].
  assert (l = b ++ n) as Hbn by (by apply insert_pos_between in Hpos as [? _]).
  assert (mjoin (<[N.to_nat (node_hash x) mod size := b ++ x :: n]> bs)
            ≡ₚ x :: mjoin bs) as Hperm.
  { eapply join_insert_cons; [done|]. rewrite Hbn. symmetry. apply Permutation_middle. }
  split; [|done]. split.
  - by eapply array_size.
  - rewrite length_insert. by eapply array_length.
  - intros j l'. destruct (decide (N.to_nat (node_hash x) mod size = j)) as [<-|Hne].
    + rewrite list_lookup_insert_eq by (by eapply lookup_lt_Some).
      intros [= <-]. split; [by eapply chain_sorted_splice|].
      rewrite Hbn in Hall. apply Forall_app in Hall as [Hb Hn].
      apply Forall_app. split; [done|]. by constructor.
    + rewrite list_lookup_insert_ne by done. by eapply array_chain.
  - unfold hashes. rewrite Hperm. simpl. apply NoDup_cons. split.
    + eapply array_absent; [done..|]. by eapply insert_pos_between_absent.
    + by eapply array_nodup.
Qed.

Lemma relink_ok size bs x :
  array_ok size bs → node_ok x → node_hash x ∉ hashes (mjoin bs) →
  ∃ bs', node_list.relink size bs x = Some bs' ∧ array_ok size bs' ∧
         mjoin bs' ≡ₚ x :: mjoin bs.
Proof.
  intros Hok Hx Habs. unfold node_list.relink.
  pose proof (array_size _ _ Hok) as Hsize.
  destruct size as [|size']; [lia|]. set (size := S size') in *.
  destruct (array_bucket _ _ (N.to_nat (node_hash x)) Hok) as (l & Hl & _).
  rewrite Hl. simpl.
  destruct (insert_pos_absent l (node_hash x)) as (b & n & Hpos).
  { intros [y [Hy Hyl]]%list_elem_of_fmap. apply Habs, list_elem_of_fmap.
    exists y. split; [done|]. by eapply array_lookup_elem. }
  rewrite Hpos. eexists. split; [done|]. by eapply array_splice.
Qed.

Lemma node_list_rehash_ok size l bs :
  array_ok size bs → Forall node_ok l → NoDup (hashes (l ++ mjoin bs)) →
  ∃ bs', node_list.rehash l bs size = Some bs' ∧ array_ok size bs' ∧
         mjoin bs' ≡ₚ l ++ mjoin bs.
Proof.
  revert bs. induction l as [|x l IH]; intros bs Hok Hall Hnd; simpl.
  - eauto.
  - apply Forall_cons in Hall as [Hx Hall].
    unfold hashes in Hnd. simpl in Hnd. apply NoDup_cons in Hnd as [Hxabs Hnd].
    destruct (relink_ok size bs x) as (bs1 & -> & Hok1 & Hperm1); [done..| |].
    { rewrite fmap_app in Hxabs. intros ?. apply Hxabs, elem_of_app. by right. }
    simpl. destruct (IH bs1) as (bs' & -> & Hok' & Hperm'); [done..| |].
    { unfold hashes. rewrite Hperm1, <-Permutation_middle. simpl.
      by apply NoDup_cons. }
    exists bs'. split; [done|]. split; [done|].
    by rewrite Hperm', Hperm1, <-Permutation_middle.
Qed.

Lemma rehash_lists_ok size ls bs :
  array_ok size bs → Forall node_ok (mjoin ls) →
  NoDup (hashes (mjoin ls ++ mjoin bs)) →
  ∃ bs', rehash_lists ls bs size = Some bs' ∧ array_ok size bs' ∧
         mjoin bs' ≡ₚ mjoin ls ++ mjoin bs.
Proof.
  revert bs. induction ls as [|l ls IH]; intros bs Hok Hall Hnd; simpl.
  - eauto.
  - simpl in Hall, Hnd. apply Forall_app in Hall as [Hl Hls].
    assert (l ++ mjoin ls ++ mjoin bs ≡ₚ mjoin ls ++ l ++ mjoin bs) as Hswap.
    { rewrite !(assoc_L (++)). by rewrite (comm (++) l). }
    destruct (node_list_rehash_ok size l bs) as (bs1 & -> & Hok1 & Hperm1); [done..| |].
    { unfold hashes in *. rewrite <-(assoc_L (++)), Hswap, fmap_app in Hnd.
      by apply NoDup_app in Hnd as (_ & _ & ?). }
    simpl. destruct (IH bs1) as (bs' & -> & Hok' & Hperm'); [done..| |].
    { unfold hashes in *. by rewrite Hperm1, <-Hswap, (assoc_L (++)). }
    exists bs'. split; [done|]. split; [done|].
    by rewrite Hperm', Hperm1, <-Hswap, (assoc_L (++)).
Qed.

Lemma array_ok_empty size : 0 < size → array_ok size (replicate size []).
Proof.
  intros Hsize.
  assert (mjoin (replicate size ([] : node_list.t)) = []) as Hjoin.
  { apply join_nil_2, Forall_replicate. done. }
  split.
  - done.
  - apply length_replicate.
  - intros i l [-> _]%lookup_replicate. split; constructor.
  - rewrite Hjoin. constructor.
Qed.

Lemma array_nodes_ok size bs : array_ok size bs → Forall node_ok (mjoin bs).
Proof.
  intros Hok. apply Forall_forall. intros x Hx.
  by destruct (array_elem _ _ _ Hok Hx) as (_ & _ & _ & ?).
Qed.

End array_facts.

(** ** The table operations keep the invariant *)

Section table_facts.
Implicit Types (db : map_database) (h p : STORAGE_T) (str : buffer) (n : nat).

Lemma join_replicate_nil size : mjoin (replicate size ([] : list node)) = [].
Proof. apply join_nil_2, Forall_replicate. done. Qed.

Lemma wf_new size f : 0 < size → wf (new_map_database size f).
Proof.
  intros Hsize. split; simpl.
  - by apply array_ok_empty.
  - unfold entries. simpl. by rewrite join_replicate_nil.
  - done.
Qed.

Lemma entries_new size f : entries (new_map_database size f) = [].
Proof. unfold entries. simpl. apply join_replicate_nil. Qed.

Lemma bucket_of_pos h size :
  0 < size → bucket_of h size = Some (N.to_nat h mod size).
Proof. destruct size; [lia|done]. Qed.

Lemma rehash_ok db :
  wf db →
  ∃ db', rehash db = Some db' ∧ wf db' ∧ entries db' ≡ₚ entries db ∧
         no_buckets_ db' = 2 * no_buckets_ db ∧
         no_items_ db' = no_items_ db ∧
         max_load_factor_ db' = max_load_factor_ db.
Proof.
  intros [Hok Hitems Hresize]. unfold rehash, growth_factor.
  pose proof (array_size _ _ Hok) as Hsize.
  destruct (rehash_lists_ok (2 * no_buckets_ db) (buckets_ db)
              (replicate (2 * no_buckets_ db) [])) as (bs' & -> & Hok' & Hperm).
  - apply array_ok_empty. lia.
  - by eapply array_nodes_ok.
  - rewrite join_replicate_nil, app_nil_r. by eapply array_nodup.
  - rewrite join_replicate_nil, app_nil_r in Hperm.
    eexists. split; [done|]. split; [|split; [|done]].
    + split; [exact Hok'| |done].
      unfold entries. cbn [buckets_ no_items_]. by rewrite Hperm.
    + unfold entries. cbn [buckets_]. by rewrite Hperm.
Qed.

Lemma grow_ok db :
  wf db →
  ∃ db1, grow_if_needed db = Some db1 ∧ wf db1 ∧ entries db1 ≡ₚ entries db ∧
         no_buckets_ db1 =
           (if next_resize_ db <=? no_items_ db + 1
            then 2 * no_buckets_ db else no_buckets_ db) ∧
         no_items_ db1 = no_items_ db ∧
         max_load_factor_ db1 = max_load_factor_ db.
Proof.
  intros Hwf. unfold grow_if_needed.
  destruct (next_resize_ db <=? no_items_ db + 1).
  - destruct (rehash_ok db Hwf) as (db' & ? & ? & ? & ? & ? & ?). eauto 10.
  - eauto 10.
Qed.


(** [lookup] returns the string of the entry that carries the hash. *)
Lemma lookup_Some db h buf :
  wf db →
  lookup db h = Some buf ↔
  ∃ x, x ∈ entries db ∧ node_hash x = h ∧ get_str x = buf.
Proof.
  intros [Hok _ _]. unfold lookup, node_list.lookup.
  rewrite bucket_of_pos by (by eapply array_size).
  destruct (array_bucket _ _ (N.to_nat h) Hok) as (l & Hl & Hsorted & _).
  simpl. rewrite Hl. simpl. split.
  - destruct (node_list.find_node l h) as [x|] eqn:Hfind; [|done].
    intros [= <-]. apply find_node_Some in Hfind as [Hx <-].
    exists x. split; [|done]. by eapply array_lookup_elem.
  - intros (x & Hx & <- & <-).
    destruct (array_elem _ _ _ Hok Hx) as (l' & Hl' & Hxl' & _).
    rewrite Hl in Hl'. injection Hl' as <-.
    by rewrite (find_node_elem_of _ _ Hsorted Hxl').
Qed.

Lemma lookup_None db h :
  wf db → lookup db h = None ↔ h ∉ hashes (entries db).
Proof.
  intros Hwf. split.
  - intros Hnone [x [-> Hx]]%list_elem_of_fmap.
    assert (lookup db (node_hash x) = Some (get_str x)) as Hsome
      by (apply lookup_Some; eauto).
    by rewrite Hsome in Hnone.
  - intros Habs. destruct (lookup db h) as [buf|] eqn:E; [|done].
    apply lookup_Some in E as (x & Hx & <- & _); [|done].
    destruct Habs. apply list_elem_of_fmap. eauto.
Qed.

(** Tables with the same entries answer every lookup alike. *)
Lemma lookup_perm db db' h :
  wf db → wf db' → entries db' ≡ₚ entries db → lookup db' h = lookup db h.
Proof.
  intros Hwf Hwf' Hperm.
  destruct (lookup db h) as [buf|] eqn:E.
  - apply lookup_Some in E as (x & Hx & ? & ?); [|done].
    apply lookup_Some; [done|]. exists x. by rewrite Hperm.
  - apply lookup_None in E; [|done]. apply lookup_None; [done|].
    unfold hashes in *. by rewrite Hperm.
Qed.

End table_facts.

Section insert_facts.
Implicit Types (db : map_database) (h p : STORAGE_T) (str : buffer) (n : nat).

(** The bucket of a stored entry, and what the chain scans report there. *)
Lemma bucket_present db x :
  wf db → x ∈ entries db →
  ∃ i b, bucket_of (node_hash x) (no_buckets_ db) = Some i ∧
         buckets_ db !! i = Some b ∧
         node_list.insert_pos b (node_hash x) = node_list.pos_exists x ∧
         node_list.find_node b (node_hash x) = Some x.
Proof.
  intros [Hok _ _] Hx.
  destruct (array_elem _ _ _ Hok Hx) as (b & Hb & Hxb & _).
  destruct (array_chain _ _ Hok _ _ Hb) as [Hsorted _].
  pose proof (find_node_elem_of _ _ Hsorted Hxb) as Hfind.
  exists (N.to_nat (node_hash x) mod no_buckets_ db), b.
  split; [by apply bucket_of_pos; eapply array_size|].
  split; [done|]. split; [|done].
  destruct (node_list.insert_pos b (node_hash x)) as [c|before next] eqn:E.
  - apply insert_pos_exists in E as (_ & _ & Hc). congruence.
  - apply insert_pos_between in E as (_ & _ & _ & Hnone). congruence.
Qed.

Lemma bucket_absent db h :
  wf db → h ∉ hashes (entries db) →
  ∃ b before next,
    bucket_of h (no_buckets_ db) = Some (N.to_nat h mod no_buckets_ db) ∧
    buckets_ db !! (N.to_nat h mod no_buckets_ db) = Some b ∧
    node_list.insert_pos b h = node_list.pos_between before next.
Proof.
  intros [Hok _ _] Habs.
  destruct (array_bucket _ _ (N.to_nat h) Hok) as (b & Hb & _).
  destruct (insert_pos_absent b h) as (before & next & Hpos).
  { intros [x [-> Hx]]%list_elem_of_fmap. apply Habs, list_elem_of_fmap.
    exists x. split; [done|]. by eapply array_lookup_elem. }
  exists b, before, next. split; [by apply bucket_of_pos; eapply array_size|]. done.
Qed.

(** Storing a bucket back unchanged, with a status other than [new_string],
    leaves the table as it was. *)
Lemma finish_unchanged db i b (same : bool) :
  buckets_ db !! i = Some b →
  finish db i (if same then old_string else collision, b)
  = (if same then old_string else collision, db).
Proof.
  intros Hb. unfold finish. destruct db as [bs items nb f nr]. simpl in *.
  rewrite (list_insert_id _ _ _ Hb). by destruct same.
Qed.

(** An [insert] under a hash that is not stored yet. *)
Lemma insert_fresh db h str n :
  wf db → h ∉ hashes (entries db) → valid_input str n →
  ∃ db1 db',
    grow_if_needed db = Some db1 ∧
    insert db h str n = Some (new_string, db') ∧ wf db' ∧
    entries db' ≡ₚ Node n h (c_str (take n str)) :: entries db ∧
    no_items_ db' = S (no_items_ db) ∧
    no_buckets_ db' = no_buckets_ db1 ∧
    max_load_factor_ db' = max_load_factor_ db.
Proof.
  intros Hwf Habs [Hlen Hfree].
  destruct (grow_ok db Hwf) as (db1 & Hgrow & Hwf1 & Hperm1 & _ & Hitems1 & Hf1).
  destruct (bucket_absent db1 h Hwf1) as (b & before & next & Hi & Hb & Hpos).
  { unfold hashes. by rewrite Hperm1. }
  assert (node_ok (Node n h (c_str (take n str)))) as Hx.
  { exists (take n str). split; [done|]. split; [done|]. simpl.
    by rewrite length_take_le. }
  destruct Hwf1 as [Hok1 Hit1 Hres1].
  destruct (array_splice _ _ _ b before next Hok1 Hx Hb Hpos) as [Hok' Hperm'].
  cbn [node_hash] in Hok', Hperm'.
  exists db1. eexists. split; [done|].
  unfold insert, node_list.insert, node_of.
  rewrite Hgrow. simpl. rewrite Hi. simpl. rewrite Hb. simpl. rewrite Hpos.
  rewrite strncpy_take by done. simpl. split; [reflexivity|].
  unfold c_str in *.
  split; [|split; [|split; [|done]]].
  - split; [exact Hok'| |exact Hres1].
    unfold entries. cbn [buckets_ no_items_ fst snd insert_status_eqb].
    rewrite Hperm'. simpl. unfold entries in Hit1. lia.
  - unfold entries at 1. cbn [buckets_ snd]. rewrite Hperm'.
    by rewrite <-Hperm1.
  - simpl. lia.
Qed.

(** An [insert] under the hash of a stored entry: the table only grows if
    it must, and the status is the outcome of [strncmp]. *)
Lemma insert_present db x str n :
  wf db → x ∈ entries db →
  ∃ db1,
    grow_if_needed db = Some db1 ∧
    insert db (node_hash x) str n
    = (same ← strncmp str (get_str x) n;
       Some (if same : bool then old_string else collision, db1)).
Proof.
  intros Hwf Hx.
  destruct (grow_ok db Hwf) as (db1 & Hgrow & Hwf1 & Hperm1 & _).
  destruct (bucket_present db1 x Hwf1) as (i & b & Hi & Hb & Hpos & _).
  { by rewrite Hperm1. }
  exists db1. split; [done|].
  unfold insert, node_list.insert.
  rewrite Hgrow. simpl. rewrite Hi. simpl. rewrite Hb. simpl. rewrite Hpos.
  destruct (strncmp str (get_str x) n) as [same|]; simpl; [|done].
  by rewrite finish_unchanged.
Qed.

(** With the prefix stored, the override is [insert] of the concatenation. *)
Lemma insert_prefix_as_insert db h p X str n :
  wf db → lookup db p = Some (c_str X) →
  insert_prefix db h p str n = insert db h (X ++ str) (length X + n).
Proof.
  intros Hwf Hp.
  destruct (grow_ok db Hwf) as (db1 & Hgrow & Hwf1 & Hperm1 & _).
  rewrite <-(lookup_perm db db1 p Hwf Hwf1 Hperm1) in Hp.
  apply lookup_Some in Hp as (px & Hpx & <- & Hstr); [|done].
  destruct (bucket_present db1 px Hwf1 Hpx) as (j & pb & Hj & Hpb & _ & Hfind).
  assert (nul_free X ∧ node_length px = length X) as [HX Hlen].
  { destruct Hwf1 as [Hok1 _ _].
    destruct (array_elem _ _ _ Hok1 Hpx) as (_ & _ & _ & s & Hs & Hstr' & Hlen).
    rewrite Hstr in Hstr'. unfold c_str in Hstr'.
    apply app_inj_tail in Hstr' as [-> _]. done. }
  unfold insert_prefix, insert. rewrite Hgrow. simpl.
  destruct (bucket_of h (no_buckets_ db1)) as [i|]; simpl; [|done].
  destruct (buckets_ db1 !! i) as [b|]; simpl; [|done].
  rewrite Hj. simpl. rewrite Hpb. simpl.
  unfold node_list.insert_prefix, node_list.insert. rewrite Hfind. simpl.
  destruct (node_list.insert_pos b h) as [cur|before next].
  - rewrite Hstr. unfold c_str. by rewrite strequal_strncmp.
  - unfold node_of_prefix, node_of. rewrite Hstr, Hlen. unfold c_str.
    rewrite (strncpy_take (X ++ [NUL]) (length X)).
    + rewrite take_app_length. simpl. rewrite strncpy_app by done.
      destruct (strncpy str n) as [d|]; simpl; [|done].
      by rewrite (assoc_L (++)).
    + rewrite length_app. simpl. lia.
    + by rewrite take_app_length.
Qed.

(** Without the prefix the override faults, whatever the target hash. *)
Lemma insert_prefix_no_prefix db h p str n :
  wf db → lookup db p = None → insert_prefix db h p str n = None.
Proof.
  intros Hwf Hp.
  destruct (grow_ok db Hwf) as (db1 & Hgrow & Hwf1 & Hperm1 & _).
  rewrite <-(lookup_perm db db1 p Hwf Hwf1 Hperm1) in Hp.
  unfold insert_prefix. rewrite Hgrow. simpl.
  destruct (bucket_of h (no_buckets_ db1)) as [i|]; simpl; [|done].
  destruct (buckets_ db1 !! i) as [b|]; simpl; [|done].
  unfold lookup, node_list.lookup in Hp.
  destruct (bucket_of p (no_buckets_ db1)) as [j|]; simpl in *; [|done].
  destruct (buckets_ db1 !! j) as [pb|]; simpl in *; [|done].
  unfold node_list.insert_prefix.
  by destruct (node_list.find_node pb p).
Qed.

(** [insert] reads its source up to the first NUL only. *)
Lemma insert_upto_nul db h s t1 t2 n :
  insert db h (s ++ NUL :: t1) n = insert db h (s ++ NUL :: t2) n.
Proof.
  unfold insert, node_list.insert, node_of.
  destruct (grow_if_needed db) as [db1|]; simpl; [|done].
  destruct (bucket_of h (no_buckets_ db1)) as [i|]; simpl; [|done].
  destruct (buckets_ db1 !! i) as [b|]; simpl; [|done].
  destruct (node_list.insert_pos b h) as [cur|before next].
  - by rewrite (strncmp_upto_nul s t1 t2).
  - by rewrite (strncpy_upto_nul s t1 t2).
Qed.

End insert_facts.

Section run_facts.
Implicit Types (db : map_database) (h p : STORAGE_T) (str : buffer) (n : nat).


Lemma valid_input_app X str n :
  nul_free X → valid_input str n → valid_input (X ++ str) (length X + n).
Proof.
  intros HX [Hlen Hfree]. split.
  - rewrite length_app. lia.
  - rewrite take_app_add. by apply nul_free_app.
Qed.

Lemma take_app_valid X str n : take (length X + n) (X ++ str) = X ++ take n str.
Proof. apply take_app_add. Qed.

(** Every stored string is a C string. *)
Lemma lookup_c_str db h buf :
  wf db → lookup db h = Some buf → ∃ X, nul_free X ∧ buf = c_str X.
Proof.
  intros Hwf (x & Hx & _ & <-)%lookup_Some; [|done].
  destruct Hwf as [Hok _ _].
  destruct (array_elem _ _ _ Hok Hx) as (_ & _ & _ & s & Hs & Hstr & _). eauto.
Qed.

(** The two outcomes of a completed [insert]. *)
Lemma insert_cases db h str n st db' :
  wf db → insert db h str n = Some (st, db') →
  ∃ db1,
    grow_if_needed db = Some db1 ∧ wf db1 ∧ entries db1 ≡ₚ entries db ∧
    no_items_ db1 = no_items_ db ∧
    ((st ≠ new_string ∧ db' = db1 ∧
      ∃ x same, x ∈ entries db ∧ node_hash x = h ∧
                strncmp str (get_str x) n = Some same ∧
                st = (if same : bool then old_string else collision)) ∨
     (st = new_string ∧ (h ∉ hashes (entries db)) ∧
      no_items_ db' = S (no_items_ db) ∧ no_buckets_ db' = no_buckets_ db1 ∧
      ∃ d, strncpy str n = Some d ∧
           entries db' ≡ₚ Node n h (d ++ [NUL]) :: entries db)).
Proof.
  intros Hwf Hins.
  destruct (grow_ok db Hwf) as (db1 & Hgrow & Hwf1 & Hperm1 & _ & Hitems1 & _).
  exists db1. do 4 (split; [done|]).
  destruct (lookup db h) as [buf|] eqn:Hlook.
  - left. apply lookup_Some in Hlook as (x & Hx & <- & <-); [|done].
    destruct (insert_present db x str n Hwf Hx) as (db1' & Hgrow' & Heq).
    rewrite Hgrow in Hgrow'. injection Hgrow' as <-.
    rewrite Heq in Hins.
    destruct (strncmp str (get_str x) n) as [same|] eqn:Hcmp; simpl in Hins; [|done].
    injection Hins as <- <-. split; [by destruct same|]. split; [done|].
    exists x, same. done.
  - right. apply lookup_None in Hlook; [|done].
    destruct (bucket_absent db1 h Hwf1) as (b & before & next & Hi & Hb & Hpos).
    { unfold hashes. by rewrite Hperm1. }
    unfold insert, node_list.insert, node_of in Hins.
    rewrite Hgrow in Hins. simpl in Hins. rewrite Hi in Hins. simpl in Hins.
    rewrite Hb in Hins. simpl in Hins. rewrite Hpos in Hins.
    destruct (strncpy str n) as [d|] eqn:Hcpy; simpl in Hins; [|done].
    injection Hins as <- <-. split; [done|]. split; [done|].
    cbn [no_items_ no_buckets_ fst snd insert_status_eqb].
    split; [lia|]. split; [done|]. exists d. split; [done|].
    unfold entries at 1. cbn [buckets_ snd].
    rewrite (join_insert_cons _ _ b _ (Node n h (d ++ [NUL])) Hb).
    + by rewrite <-Hperm1.
    + apply insert_pos_between in Hpos as (-> & _).
      symmetry. apply Permutation_middle.
Qed.

(** A completed [insert_prefix] found its prefix and did what [insert] does
    with the concatenation. *)
Lemma insert_prefix_cases db h p str n r :
  wf db → insert_prefix db h p str n = Some r →
  ∃ X, nul_free X ∧ lookup db p = Some (c_str X) ∧
       insert db h (X ++ str) (length X + n) = Some r.
Proof.
  intros Hwf Hins. destruct (lookup db p) as [buf|] eqn:Hp.
  - destruct (lookup_c_str db p buf Hwf Hp) as (X & HX & ->).
    exists X. split; [done|]. split; [done|].
    by rewrite <-(insert_prefix_as_insert db h p X str n Hwf Hp).
  - by rewrite (insert_prefix_no_prefix db h p str n Hwf Hp) in Hins.
Qed.

Lemma insert_wf db h str n st db' :
  wf db → valid_input str n → insert db h str n = Some (st, db') → wf db'.
Proof.
  intros Hwf Hvalid Hins.
  destruct (lookup db h) as [buf|] eqn:Hlook.
  - destruct (insert_cases db h str n st db' Hwf Hins)
      as (db1 & _ & Hwf1 & _ & _ & [(_ & -> & _)|(_ & Habs & _)]); [done|].
    apply lookup_None in Habs; [congruence|done].
  - apply lookup_None in Hlook; [|done].
    destruct (insert_fresh db h str n Hwf Hlook Hvalid)
      as (db1 & db2 & _ & Hins' & Hwf2 & _).
    rewrite Hins in Hins'. by injection Hins' as _ ->.
Qed.

Lemma run_call_wf db c st db' :
  wf db → valid_call c → run_call db c = Some (st, db') → wf db'.
Proof.
  intros Hwf Hvalid Hrun. destruct c as [h str n|h p str n]; simpl in *.
  - by eapply insert_wf.
  - destruct (insert_prefix_cases db h p str n _ Hwf Hrun) as (X & HX & _ & Hins).
    eapply insert_wf; [done| |exact Hins]. by apply valid_input_app.
Qed.

Lemma run_calls_wf db cs db' :
  wf db → Forall valid_call cs → run_calls db cs = Some db' → wf db'.
Proof.
  intros Hwf Hvalid. revert db Hwf.
  induction Hvalid as [|c cs Hc Hcs IH]; intros db Hwf; simpl.
  - by intros [= <-].
  - destruct (run_call db c) as [[st db1]|] eqn:Hrun; simpl; [|done].
    apply IH. by eapply run_call_wf.
Qed.

Lemma reachable_wf db : reachable db → wf db.
Proof.
  intros (size & f & cs & Hsize & Hvalid & Hrun).
  eapply run_calls_wf; [by apply wf_new|done..].
Qed.

End run_facts.

(** ** Runs of fresh inserts *)

Section insert_all_facts.

(** A property of the counters that every fresh insert hands on. *)
Variable I : map_database → Prop.
Hypothesis I_step : ∀ db db1 db',
  wf db → I db → grow_if_needed db = Some db1 → wf db' →
  no_items_ db' = S (no_items_ db) → no_buckets_ db' = no_buckets_ db1 →
  max_load_factor_ db' = max_load_factor_ db → I db'.


End insert_all_facts.




(** ** The growth threshold *)

(** *** Shifts of the mantissa *)

Section double_facts.
Local Open Scope Z_scope.

Lemma iter_pos_iter {A} (f : A → A) (p : positive) (x : A) :
  SpecFloat.iter_pos f p x = Pos.iter f x p.
Proof.
  revert x. induction p as [p IH|p IH|]; intros x; simpl.
  - by rewrite !IH, <-!Pos.iter_swap.
  - by rewrite !IH.
  - done.
Qed.

Lemma shr_m_shr_1 mrs : 0 ≤ shr_m mrs → shr_m (shr_1 mrs) = Z.div2 (shr_m mrs).
Proof. destruct mrs as [[|[p|p|]|p] r s]; simpl; by try lia. Qed.

(** [shr] by [p] bits divides the mantissa by [2 ^ p]. *)
Lemma shr_m_iter p mrs :
  0 ≤ shr_m mrs → shr_m (SpecFloat.iter_pos shr_1 p mrs) = shr_m mrs / 2 ^ Zpos p.
Proof.
  intros Hm. rewrite iter_pos_iter, <-Z.shiftr_div_pow2 by lia.
  induction p as [|p IH] using Pos.peano_ind.
  - simpl. by rewrite shr_m_shr_1.
  - rewrite Pos.iter_succ, shr_m_shr_1.
    + rewrite IH, Z.div2_spec, Z.shiftr_shiftr by lia. f_equal. lia.
    + rewrite IH. by apply Z.shiftr_nonneg.
Qed.

Lemma round_nearest_even_bounds m l :
  m ≤ round_nearest_even m l ≤ m + 1.
Proof. destruct l as [|[]]; simpl; try destruct (Z.even m); lia. Qed.

Lemma digits2_pos_size m : digits2_pos m = Pos.size m.
Proof. induction m as [m IH|m IH|]; simpl; by rewrite ?IH. Qed.

(** A number of [d] binary digits is at least [2 ^ (d - 1)]. *)
Lemma digits2_pos_le m : 2 ^ (Zpos (digits2_pos m) - 1) ≤ Zpos m.
Proof.
  rewrite digits2_pos_size. pose proof (Pos.size_le m) as Hle.
  apply Pos2Z.pos_le_pos in Hle. rewrite Pos2Z.inj_pow in Hle.
  assert (2 ^ Zpos (Pos.size m) = 2 * 2 ^ (Zpos (Pos.size m) - 1)) as Hpow.
  { rewrite <-Z.pow_succ_r by lia. f_equal. lia. }
  rewrite Hpow in Hle. lia.
Qed.

End double_facts.

Section double_value_facts.
Local Open Scope Q_scope.

Lemma pow2_pos (e : Z) : 0 < 2 ^ e.
Proof. by apply Qpower_0_lt. Qed.

Lemma pow2_add (a b : Z) : 2 ^ (a + b) == 2 ^ a * 2 ^ b.
Proof. by apply Qpower_plus. Qed.

Lemma pow2_Z (n : Z) : (0 ≤ n)%Z → 2 ^ n == inject_Z (2 ^ n).
Proof. intros Hn. by rewrite Zpower_Qpower. Qed.

Lemma pow2_le_mono (a b : Z) : (a ≤ b)%Z → 2 ^ a <= 2 ^ b.
Proof. intros Hab. by apply Qpower_le_compat_l. Qed.

Lemma pow2_le_1 (e : Z) : (e ≤ 0)%Z → 2 ^ e <= 1.
Proof. intros He. change 1 with (2 ^ 0). by apply pow2_le_mono. Qed.

(** Dropping [n] bits and raising the exponent by [n] does not raise the
    value. *)
Lemma shift_value_le (m e n : Z) :
  (0 ≤ m)%Z → (0 ≤ n)%Z →
  inject_Z (m / 2 ^ n) * 2 ^ (e + n) <= inject_Z m * 2 ^ e.
Proof.
  intros Hm Hn. rewrite pow2_add, (pow2_Z n) by done.
  rewrite (Qmult_comm (2 ^ e)), Qmult_assoc, <-inject_Z_mult.
  apply Qmult_le_compat_r; [|apply Qlt_le_weak, pow2_pos].
  rewrite <-Zle_Qle, Z.mul_comm. apply Z.mul_div_le.
  by apply Z.pow_pos_nonneg.
Qed.

(** [Z.shiftl m e] is the floor of [m * 2 ^ e]. *)
Lemma shiftl_value_le (m e : Z) :
  (0 ≤ m)%Z → inject_Z (Z.shiftl m e) <= inject_Z m * 2 ^ e.
Proof.
  intros Hm. destruct (Z.le_gt_cases 0 e) as [He|He].
  - rewrite Z.shiftl_mul_pow2, inject_Z_mult, pow2_Z by done. apply Qle_refl.
  - rewrite <-(Z.opp_involutive e) at 1.
    change (Z.shiftl m (- - e)) with (Z.shiftr m (- e)).
    rewrite Z.shiftr_div_pow2 by lia.
    pose proof (shift_value_le m e (- e) Hm ltac:(lia)) as Hle.
    rewrite Z.add_opp_diag_r in Hle. change (2 ^ 0) with 1 in Hle.
    by rewrite Qmult_1_r in Hle.
Qed.

End double_value_facts.

(** *** Rounding *)

Section rounding_facts.
Local Open Scope Z_scope.

Lemma shr_m_of_loc m l : shr_m (shr_record_of_loc m l) = m.
Proof. by destruct l as [|[]]. Qed.

(** What [shr_fexp] does to the mantissa and the exponent. *)
Lemma shr_fexp_spec m e l :
  0 ≤ m →
  ∃ n, 0 ≤ n ∧ (shr_fexp 53 1024 m e l).2 = e + n ∧
       shr_m (shr_fexp 53 1024 m e l).1 = m / 2 ^ n ∧
       (n = 0 ∧ (shr_fexp 53 1024 m e l).1 = shr_record_of_loc m l ∨
        0 < n ∧ e + n = fexp 53 1024 (Zdigits2 m + e)).
Proof.
  intros Hm. unfold shr_fexp, shr.
  destruct (fexp 53 1024 (Zdigits2 m + e) - e) as [|p|p] eqn:E.
  - exists 0. cbn [fst snd]. rewrite shr_m_of_loc, Z.div_1_r.
    split; [done|]. split; [lia|]. split; [done|]. by left.
  - exists (Zpos p). cbn [fst snd].
    rewrite shr_m_iter, shr_m_of_loc by (by rewrite shr_m_of_loc).
    split; [lia|]. split; [done|]. split; [done|]. right. lia.
  - exists 0. cbn [fst snd]. rewrite shr_m_of_loc, Z.div_1_r.
    split; [done|]. split; [lia|]. split; [done|]. by left.
Qed.

(** A mantissa that needs no shift is kept as it is. *)
Lemma binary_round_aux_exact (s : bool) (M : positive) (e : Z) :
  fexp 53 1024 (Zpos (digits2_pos M) + e) ≤ e → e ≤ 971 →
  binary_round_aux 53 1024 s (Zpos M) e loc_Exact = S754_finite s M e.
Proof.
  intros Hfexp He. unfold binary_round_aux, shr_fexp, shr.
  cbn [Zdigits2].
  destruct (fexp 53 1024 (Zpos (digits2_pos M) + e) - e) as [|p|p] eqn:E;
    [|lia|]; cbn [shr_record_of_loc shr_m loc_of_shr_record round_nearest_even
                  Zdigits2]; rewrite E; cbn [shr_m];
    by destruct (Z.leb_spec e (1024 - 53)); [|lia].
Qed.

End rounding_facts.

Section rounding_bound.
Local Open Scope Q_scope.

(** The product of two doubles, rounded and floored, is at most one above
    the exact product when the result has its last binary digit at or below
    the units. *)
Lemma binary_round_aux_floor (s : bool) (M : positive) (e : Z) :
  (Zpos (digits2_pos M) + e ≤ 53)%Z →
  inject_Z (Z.of_nat (floor_to_size
                        (binary_round_aux 53 1024 s (Zpos M) e loc_Exact)))
  <= inject_Z (Zpos M) * 2 ^ e + 1.
Proof.
  intros Hd. unfold binary_round_aux.
  destruct (shr_fexp_spec (Zpos M) e loc_Exact) as (n1 & Hn1 & He1 & Hm1 & Hcase1);
    [done|].
  destruct (shr_fexp 53 1024 (Zpos M) e loc_Exact) as [mrs1 e1].
  cbn [fst snd] in He1, Hm1, Hcase1.
  set (m2 := round_nearest_even (shr_m mrs1) (loc_of_shr_record mrs1)).
  set (x := inject_Z (Zpos M) * 2 ^ e).
  assert (0 <= x) as Hpos.
  { apply Qmult_le_0_compat; [done|apply Qlt_le_weak, pow2_pos]. }
  assert ((0 ≤ m2)%Z ∧ inject_Z m2 * 2 ^ e1 <= x + 1) as [Hm2 Hv2].
  { destruct Hcase1 as [[-> ->]|[Hpos1 Hfexp]].
    - subst m2. cbn [shr_record_of_loc shr_m loc_of_shr_record round_nearest_even].
      split; [done|]. rewrite He1, Z.add_0_r. fold x. lra.
    - pose proof (round_nearest_even_bounds (shr_m mrs1) (loc_of_shr_record mrs1))
        as [Hlo Hhi]. fold m2 in Hlo, Hhi.
      assert (0 ≤ shr_m mrs1)%Z as Hm1pos.
      { rewrite Hm1. apply Z.div_pos; [done|]. by apply Z.pow_pos_nonneg. }
      split; [lia|].
      assert (e1 ≤ 0)%Z as He1neg.
      { rewrite He1, Hfexp. unfold fexp, emin. cbn [Zdigits2]. lia. }
      pose proof (shift_value_le (Zpos M) e n1 ltac:(done) Hn1) as Hshift.
      rewrite <-Hm1, <-He1 in Hshift. fold x in Hshift.
      pose proof (pow2_le_1 e1 He1neg) as Hone.
      pose proof (pow2_pos e1) as Hp.
      assert (inject_Z m2 * 2 ^ e1 <= (inject_Z (shr_m mrs1) + 1) * 2 ^ e1) as Hle.
      { apply Qmult_le_compat_r; [|by apply Qlt_le_weak].
        rewrite <-(inject_Z_plus _ 1), <-Zle_Qle. lia. }
      rewrite Qmult_plus_distr_l, Qmult_1_l in Hle.
      set (y := inject_Z (shr_m mrs1) * 2 ^ e1) in *.
      set (z := inject_Z m2 * 2 ^ e1) in *.
      set (p := 2 ^ e1) in *. clearbody x y z p. lra. }
  clearbody m2.
  destruct (shr_fexp_spec m2 e1 loc_Exact) as (n2 & Hn2 & He3 & Hm3 & _);
    [done|].
  destruct (shr_fexp 53 1024 m2 e1 loc_Exact) as [mrs3 e3].
  cbn [fst snd] in He3, Hm3.
  pose proof (shift_value_le m2 e1 n2 Hm2 Hn2) as Hshift.
  rewrite <-Hm3, <-He3 in Hshift.
  assert (0 <= x + 1) as Hpos1 by (clearbody x; lra).
  destruct (shr_m mrs3) as [|m3|m3]; [done| |done].
  destruct (e3 <=? 1024 - 53)%Z; [|done].
  destruct s; [done|]. cbn [floor_to_size].
  rewrite Z2Nat.id by (by apply Z.shiftl_nonneg).
  pose proof (shiftl_value_le (Zpos m3) e3 ltac:(done)) as Hfl.
  eapply Qle_trans; [exact Hfl|]. eapply Qle_trans; [exact Hshift|done].
Qed.

End rounding_bound.

Section conversion_facts.
Local Open Scope Z_scope.

Lemma iter_xO_value (p k : positive) :
  Zpos (Pos.iter xO p k) = Zpos p * 2 ^ Zpos k.
Proof.
  induction k as [|k IH] using Pos.peano_ind.
  - simpl. lia.
  - rewrite Pos.iter_succ, Pos2Z.inj_xO, IH, Pos2Z.inj_succ, Z.pow_succ_r by lia.
    lia.
Qed.

Lemma iter_xO_digits (p k : positive) :
  Zpos (digits2_pos (Pos.iter xO p k)) = Zpos (digits2_pos p) + Zpos k.
Proof.
  induction k as [|k IH] using Pos.peano_ind.
  - simpl. lia.
  - rewrite Pos.iter_succ. cbn [digits2_pos]. rewrite Pos2Z.inj_succ, IH. lia.
Qed.

Lemma digits2_pos_bound (p : positive) (d : Z) :
  Zpos p < 2 ^ d → Zpos (digits2_pos p) ≤ d.
Proof.
  intros Hp. pose proof (digits2_pos_le p) as Hle.
  destruct (Z.le_gt_cases (Zpos (digits2_pos p)) d) as [|Hgt]; [done|].
  assert (2 ^ d ≤ 2 ^ (Zpos (digits2_pos p) - 1)); [|lia].
  apply Z.pow_le_mono_r; lia.
Qed.

(** A bucket count below [2 ^ 53] converts to [double] without rounding. *)
Lemma double_of_size_exact (n : nat) :
  0 < Z.of_nat n < 2 ^ 53 →
  ∃ m e, double_of_size n = S754_finite false m e ∧
         (inject_Z (Zpos m) * 2 ^ e == inject_Z (Z.of_nat n))%Q.
Proof.
  intros [Hpos Hlt]. unfold double_of_size, binary_normalize.
  destruct (Z.of_nat n) as [|p|p]; [lia| |lia].
  unfold binary_round.
  pose proof (digits2_pos_bound p 53 Hlt) as Hd.
  assert (fexp 53 1024 (Zpos (digits2_pos p) + 0) = Zpos (digits2_pos p) - 53)
    as -> by (unfold fexp, emin; lia).
  unfold shl_align.
  destruct (Zpos (digits2_pos p) - 53 - 0) as [|k|k] eqn:E; [|lia|].
  - exists p, 0. rewrite binary_round_aux_exact; [|unfold fexp, emin; lia|lia].
    split; [done|]. by rewrite Qmult_1_r.
  - exists (Pos.iter xO p k), (Zpos (digits2_pos p) - 53).
    rewrite binary_round_aux_exact;
      [|rewrite iter_xO_digits; unfold fexp, emin; lia|lia].
    split; [done|]. rewrite iter_xO_value, inject_Z_mult, <-Qmult_assoc.
    replace (Zpos (digits2_pos p) - 53) with (- Zpos k) by lia.
    rewrite <-pow2_Z, <-pow2_add by done.
    replace (Zpos k + - Zpos k) with 0 by lia. by rewrite Qmult_1_r.
Qed.

End conversion_facts.

Section threshold_facts.
Local Open Scope Q_scope.

Lemma resize_threshold_zero (f : double) : resize_threshold 0 f = 0%nat.
Proof. by destruct f as [s|s| |s m e]. Qed.

(** Below [2 ^ 53] the threshold is at most one above the exact product of
    the bucket count and the factor. *)
Lemma resize_threshold_bound (nb : nat) (f : double) :
  positive_finite f → exact_range nb f →
  inject_Z (Z.of_nat (resize_threshold nb f))
  <= inject_Z (Z.of_nat nb) * double_value f + 1.
Proof.
  intros Hf [Hnb Hprod]. destruct f as [| | |[] m e]; try done.
  destruct (Nat.eq_dec nb 0%nat) as [->|Hnz].
  { rewrite resize_threshold_zero. change (inject_Z (Z.of_nat 0)) with 0.
    rewrite Qmult_0_l. done. }
  destruct (double_of_size_exact nb) as (mn & en & Hconv & Hval); [lia|].
  unfold resize_threshold, double_mul. rewrite Hconv. cbn [SFmul xorb].
  cbn [double_value] in *.
  assert (inject_Z (Zpos (mn * m)) * 2 ^ (en + e)
          == inject_Z (Z.of_nat nb) * (inject_Z (Zpos m) * 2 ^ e)) as Hexact.
  { rewrite Pos2Z.inj_mul, inject_Z_mult, pow2_add, <-Hval. ring. }
  rewrite <-Hexact in Hprod |- *.
  apply binary_round_aux_floor.
  pose proof (digits2_pos_le (mn * m)) as Hdig.
  set (d := Zpos (digits2_pos (mn * m))) in *.
  destruct (Z.le_gt_cases (d + (en + e)) 53) as [|Hgt]; [done|].
  exfalso. apply (Qlt_not_le _ _ Hprod).
  eapply Qle_trans; [apply (pow2_le_mono 53 (d - 1 + (en + e))); lia|].
  rewrite pow2_add. apply Qmult_le_compat_r; [|apply Qlt_le_weak, pow2_pos].
  rewrite pow2_Z by (subst d; lia). by rewrite <-Zle_Qle.
Qed.

(** The product is rounded before it is floored: 10 times the [double]
    0.3 is just below 3 and rounds to 3. *)
Example resize_threshold_three_tenths :
  resize_threshold 10 three_tenths = 3%nat ∧
  resize_threshold 20 three_tenths = 6%nat ∧
  resize_threshold 40 three_tenths = 12%nat ∧
  Qfloor (10 * double_value three_tenths) = 2%Z ∧
  resize_threshold 1024 1 = 1024%nat.
Proof. by vm_compute. Qed.


End threshold_facts.

(** ** Growth by doubling at load factor 1.0 *)





(** ** The load factor *)

Section counter_facts.
Implicit Types (db : map_database) (c : call).

(** The counters after [grow_if_needed]; no invariant is needed. *)
Lemma grow_counts db db1 :
  grow_if_needed db = Some db1 →
  no_items_ db1 = no_items_ db ∧
  max_load_factor_ db1 = max_load_factor_ db ∧
  if next_resize_ db <=? no_items_ db + 1
  then no_buckets_ db1 = 2 * no_buckets_ db ∧
       next_resize_ db1 =
         resize_threshold (2 * no_buckets_ db) (max_load_factor_ db)
  else db1 = db.
Proof.
  unfold grow_if_needed, rehash, growth_factor.
  destruct (next_resize_ db <=? no_items_ db + 1).
  - destruct (rehash_lists _ _ _); simpl; [|done]. by intros [= <-].
  - by intros [= <-].
Qed.

(** The counters after a completed call. *)
Lemma run_call_counts db c st db' :
  run_call db c = Some (st, db') →
  ∃ db1, grow_if_needed db = Some db1 ∧
         no_items_ db' =
           (if insert_status_eqb st new_string
            then no_items_ db1 + 1 else no_items_ db1) ∧
         no_buckets_ db' = no_buckets_ db1 ∧
         max_load_factor_ db' = max_load_factor_ db1 ∧
         next_resize_ db' = next_resize_ db1.
Proof.
  destruct c as [h str n|h p str n]; simpl; unfold insert, insert_prefix;
    (destruct (grow_if_needed db) as [db1|]; simpl; [|done]);
    (destruct (bucket_of h (no_buckets_ db1)) as [i|]; simpl; [|done]);
    (destruct (buckets_ db1 !! i) as [b|]; simpl; [|done]).
  - destruct (node_list.insert b h str n) as [r|]; simpl; [|done].
    intros [= <- <-]. exists db1. by repeat split.
  - destruct (bucket_of p (no_buckets_ db1)) as [j|]; simpl; [|done].
    destruct (buckets_ db1 !! j) as [pb|]; simpl; [|done].
    destruct (node_list.insert_prefix b pb p h str n) as [r|]; simpl; [|done].
    intros [= <- <-]. exists db1. by repeat split.
Qed.

(** A completed call doubles the bucket count exactly when the item count
    plus one reaches the threshold, and leaves it alone otherwise. *)
Lemma run_call_buckets db c st db' :
  run_call db c = Some (st, db') →
  no_buckets_ db' =
    if next_resize_ db <=? no_items_ db + 1
    then 2 * no_buckets_ db else no_buckets_ db.
Proof.
  intros (db1 & Hgrow & _ & -> & _)%run_call_counts.
  apply grow_counts in Hgrow as (_ & _ & Hnb).
  destruct (next_resize_ db <=? no_items_ db + 1); [by destruct Hnb|by subst].
Qed.

(** A run of calls doubles the buckets at most once for each call. *)
Lemma run_calls_buckets db cs db' :
  run_calls db cs = Some db' →
  ∃ k, k ≤ length cs ∧ no_buckets_ db' = no_buckets_ db * 2 ^ k.
Proof.
  revert db. induction cs as [|c cs IH]; intros db; simpl.
  - intros [= <-]. exists 0. simpl. lia.
  - destruct (run_call db c) as [[st db1]|] eqn:Hrun; simpl; [|done].
    intros (k & Hk & ->)%IH. rewrite (run_call_buckets _ _ _ _ Hrun).
    destruct (next_resize_ db <=? no_items_ db + 1).
    + exists (S k). split; [lia|]. rewrite Nat.pow_succ_r'. lia.
    + exists k. split; [lia|done].
Qed.

Lemma exact_range_mono nb nb' f :
  positive_finite f → nb ≤ nb' → exact_range nb' f → exact_range nb f.
Proof.
  intros Hf Hle [Hnb Hprod]. split; [lia|].
  eapply Qle_lt_trans; [|exact Hprod].
  apply Qmult_le_compat_r; [rewrite <-Zle_Qle; lia|].
  destruct f as [| | |[] m e]; try done. cbn [double_value].
  apply Qmult_le_0_compat; [done|apply Qlt_le_weak, pow2_pos].
Qed.

Lemma double_value_nonneg f : positive_finite f → (0 <= double_value f)%Q.
Proof.
  destruct f as [| | |[] m e]; try done. intros _. cbn [double_value].
  apply Qmult_le_0_compat; [done|apply Qlt_le_weak, pow2_pos].
Qed.

Lemma counts_inv_new b f :
  positive_finite f → 0 < b → counts_inv b f (new_map_database b f).
Proof.
  intros Hf Hb. unfold counts_inv. simpl. do 4 (split; [done|]).
  change (inject_Z 0) with 0%Q. apply Qmult_le_0_compat.
  - change 0%Q with (inject_Z 0). rewrite <-Zle_Qle. lia.
  - by apply double_value_nonneg.
Qed.

(** A completed call hands the invariant on, as long as the counters stay in
    the range where the product is computed to within one. *)
Lemma counts_inv_step b f db c st db' :
  positive_finite f →
  (1 <= 2 * inject_Z (Z.of_nat b) * double_value f)%Q →
  counts_inv b f db → run_call db c = Some (st, db') →
  exact_range (no_buckets_ db') f → counts_inv b f db'.
Proof.
  intros Hfin Hone (Hf & Hnr & Hnb & Hb & Hcount)
    (db1 & Hgrow & Hit' & Hnb' & Hf' & Hnr')%run_call_counts Hrange.
  apply grow_counts in Hgrow as (Hit1 & Hf1 & Hgrown).
  pose proof (double_value_nonneg f Hfin) as Hv.
  assert (no_items_ db' ≤ no_items_ db + 1) as Hle.
  { rewrite Hit', Hit1. destruct (insert_status_eqb st new_string); lia. }
  unfold counts_inv. rewrite Hf', Hf1, Hnr'. split; [done|].
  rewrite Hnb' in Hrange |- *.
  destruct (Nat.leb_spec (next_resize_ db) (no_items_ db + 1)) as [Hgrow|Hstay].
  - destruct Hgrown as [Hnb1 ->]. rewrite Hnb1, Hf in *. split; [done|].
    split; [lia|]. split; [lia|].
    rewrite Nat2Z.inj_mul, inject_Z_mult, <-Qmult_assoc.
    change (inject_Z (Z.of_nat 2)) with 2%Q.
    assert (inject_Z (Z.of_nat b) * double_value f
            <= inject_Z (Z.of_nat (no_buckets_ db)) * double_value f)%Q as Hbn.
    { apply Qmult_le_compat_r; [rewrite <-Zle_Qle; lia|done]. }
    rewrite <-Qmult_assoc in Hone.
    set (y := (inject_Z (Z.of_nat (no_buckets_ db)) * double_value f)%Q) in *.
    set (x := (inject_Z (Z.of_nat b) * double_value f)%Q) in *.
    destruct (no_items_ db) as [|i] eqn:Hi.
    + assert (inject_Z (Z.of_nat (no_items_ db')) <= 1)%Q as H1.
      { change 1%Q with (inject_Z 1). rewrite <-Zle_Qle. lia. }
      clearbody x y. lra.
    + assert (inject_Z (Z.of_nat (no_items_ db'))
              <= inject_Z (Z.of_nat (S i)) + 1)%Q as H1.
      { rewrite <-(inject_Z_plus _ 1), <-Zle_Qle. lia. }
      assert (1 <= inject_Z (Z.of_nat (S i)))%Q as H2.
      { change 1%Q with (inject_Z 1). rewrite <-Zle_Qle. lia. }
      clearbody x y. lra.
  - subst db1. split; [done|]. split; [done|]. split; [done|].
    pose proof (resize_threshold_bound (no_buckets_ db) f Hfin Hrange) as Hbound.
    rewrite <-Hnr in Hbound.
    set (y := (inject_Z (Z.of_nat (no_buckets_ db)) * double_value f)%Q) in *.
    assert (inject_Z (Z.of_nat (no_items_ db')) + 1
            <= inject_Z (Z.of_nat (next_resize_ db)) ∨
            inject_Z (Z.of_nat (no_items_ db'))
            <= inject_Z (Z.of_nat (no_items_ db)))%Q as [H1|H1].
    { rewrite Hit'. destruct (insert_status_eqb st new_string).
      - left. rewrite <-(inject_Z_plus _ 1), <-Zle_Qle. lia.
      - right. apply Qle_refl. }
    + clearbody y. lra.
    + clearbody y. lra.
Qed.

Lemma counts_inv_run b f db cs db' :
  positive_finite f →
  (1 <= 2 * inject_Z (Z.of_nat b) * double_value f)%Q →
  counts_inv b f db → run_calls db cs = Some db' →
  exact_range (no_buckets_ db') f → counts_inv b f db'.
Proof.
  intros Hfin Hone. revert db. induction cs as [|c cs IH]; intros db Hinv; simpl.
  - by intros [= <-].
  - destruct (run_call db c) as [[st db1]|] eqn:Hrun; simpl; [|done].
    intros Hrest Hrange. apply (IH db1); [|done..].
    apply (counts_inv_step b f db c st db1); [done..|].
    destruct (run_calls_buckets _ _ _ Hrest) as (k & _ & Hk).
    apply (exact_range_mono _ (no_buckets_ db')); [done| |done].
    rewrite Hk. pose proof (Nat.pow_nonzero 2 k). nia.
Qed.

Lemma counts_inv_load b f db :
  counts_inv b f db → (load_factor db <= double_value f)%Q.
Proof.
  intros (_ & _ & Hnb & _ & Hcount). unfold load_factor.
  apply Qle_shift_div_r.
  { change 0%Q with (inject_Z 0). rewrite <-Zlt_Qlt. lia. }
  by rewrite Qmult_comm.
Qed.

End counter_facts.

(** C5, as the specification states it, fails: a table built with one
    bucket and load factor 0.25 holds one item in two buckets after its
    first insert, a load factor of 1/2. *)
Lemma load_factor_exceeded :
  ∃ db,
    run_calls (new_map_database 1 (dyadic 1 (-2))) [call_insert 0 (bytes "a") 1]
    = Some db ∧
    no_items_ db = 1 ∧ no_buckets_ db = 2 ∧
    double_value (dyadic 1 (-2)) == 1 # 4 ∧
    ¬ (load_factor db <= double_value (dyadic 1 (-2)))%Q.
Proof.
  eexists. split; [vm_compute; reflexivity|]. split; [done|]. split; [done|].
  split; [by vm_compute|]. vm_compute. intros H. by apply H.
Qed.

(** C5, amended. For a table built with [b] buckets and a positive finite
    load factor [f] with [1 ≤ 2 * b * f], and as long as the bucket count
    and its product with [f] are below [2 ^ 53]: after every completed
    [insert] or [insert_prefix] the item count divided by the bucket count
    is at most [f], the bucket count is at least [b], and the next call
    doubles the buckets, before it inserts, exactly when the item count
    plus one reaches the threshold, the floor of the [double] product
    [bucket_count * f]. *)
Theorem load_factor_bound b f cs db :
  positive_finite f →
  (1 <= 2 * inject_Z (Z.of_nat b) * double_value f)%Q →
  run_calls (new_map_database b f) cs = Some db →
  exact_range (no_buckets_ db) f →
  (load_factor db <= double_value f)%Q ∧ b ≤ no_buckets_ db ∧
  next_resize_ db = resize_threshold (no_buckets_ db) f ∧
  ∀ c st db', run_call db c = Some (st, db') →
    no_buckets_ db' =
      (if resize_threshold (no_buckets_ db) f <=? no_items_ db + 1
       then 2 * no_buckets_ db else no_buckets_ db) ∧
    (exact_range (no_buckets_ db') f →
     (load_factor db' <= double_value f)%Q).
Proof.
  intros Hfin Hone Hrun Hrange.
  assert (0 < b) as Hb.
  { destruct b; [|lia]. exfalso. apply (Qle_not_lt _ _ Hone).
    change (inject_Z (Z.of_nat 0)) with 0%Q. by rewrite Qmult_0_r, Qmult_0_l. }
  pose proof (counts_inv_run b f _ cs db Hfin Hone
                (counts_inv_new b f Hfin Hb) Hrun Hrange) as Hinv.
  split; [by eapply counts_inv_load|].
  pose proof Hinv as (Hf & Hnr & Hnb & Hbn & Hcount).
  split; [done|]. split; [done|]. intros c st db' Hcall. split.
  - rewrite <-Hnr. by eapply run_call_buckets.
  - intros Hrange'. eapply counts_inv_load, counts_inv_step; done.
Qed.

Lemma load_factor_bound_witness :
  ∃ db,
    run_calls (new_map_database 10 three_tenths)
      [call_insert 9 (bytes "ab") 2; call_insert 9 (bytes "ab") 2;
       call_insert_prefix 6 9 (bytes "cd") 2; call_insert 1 (bytes "x") 1]
    = Some db ∧
    no_items_ db = 3 ∧ no_buckets_ db = 20 ∧
    (load_factor db <= double_value three_tenths)%Q ∧ 10 ≤ no_buckets_ db ∧
    next_resize_ db = resize_threshold (no_buckets_ db) three_tenths ∧
    ∀ c st db', run_call db c = Some (st, db') →
      no_buckets_ db' =
        (if resize_threshold (no_buckets_ db) three_tenths <=? no_items_ db + 1
         then 2 * no_buckets_ db else no_buckets_ db) ∧
      (exact_range (no_buckets_ db') three_tenths →
       (load_factor db' <= double_value three_tenths)%Q).
Proof.
  eexists. split; [vm_compute; reflexivity|].
  split; [reflexivity|]. split; [reflexivity|].
  apply (load_factor_bound 10 three_tenths
           [call_insert 9 (bytes "ab") 2; call_insert 9 (bytes "ab") 2;
            call_insert_prefix 6 9 (bytes "cd") 2; call_insert 1 (bytes "x") 1]).
  - exact Logic.I.
  - by vm_compute.
  - vm_compute. reflexivity.
  - split; by vm_compute.
Defined.

(** ** Rehashing *)

(** C6. In every reachable state, so after every [insert] and
    [insert_prefix], each chain is strictly increasing by hash; [rehash]
    then succeeds, its bucket array has twice the buckets, every entry sits
    in the bucket [hash mod new_bucket_count], the entries are the same up
    to order, and each chain is again strictly increasing by hash. *)
Theorem rehash_relinks db :
  reachable db →
  (∀ l, l ∈ buckets_ db → chain_sorted l) ∧
  length (buckets_ db) = no_buckets_ db ∧
  ∃ db',
    rehash db = Some db' ∧
    length (buckets_ db') = 2 * no_buckets_ db ∧
    no_buckets_ db' = 2 * no_buckets_ db ∧
    (∀ i l x, buckets_ db' !! i = Some l → x ∈ l →
              i = N.to_nat (node_hash x) mod no_buckets_ db') ∧
    entries db' ≡ₚ entries db ∧
    (∀ l, l ∈ buckets_ db' → chain_sorted l).
Proof.
  intros Hwf%reachable_wf.
  assert (∀ d, wf d → ∀ l, l ∈ buckets_ d → chain_sorted l) as Hsorted.
  { intros d [Hok _ _] l [i Hi]%list_elem_of_lookup.
    by destruct (array_chain _ _ Hok i l Hi). }
  split; [by apply Hsorted|].
  split; [by destruct Hwf as [[] _ _]|].
  destruct (rehash_ok db Hwf) as (db' & Hre & Hwf' & Hperm & Hnb & _).
  exists db'. split; [done|].
  split; [by rewrite <-Hnb; destruct Hwf' as [[] _ _]|]. split; [done|].
  split; [|split; [done|by apply Hsorted]].
  intros i l x Hi Hx. destruct Hwf' as [Hok' _ _].
  destruct (array_chain _ _ Hok' i l Hi) as [_ Hall].
  apply (proj1 (Forall_forall _ _)) with (x := x) in Hall as [? _]; done.
Qed.

Lemma rehash_relinks_witness :
  ∃ db,
    run_calls (new_map_database 2 1) small_table_calls = Some db ∧
    reachable db ∧
    (∀ l, l ∈ buckets_ db → chain_sorted l) ∧
    length (buckets_ db) = no_buckets_ db ∧
    ∃ db',
      rehash db = Some db' ∧
      length (buckets_ db') = 2 * no_buckets_ db ∧
      no_buckets_ db' = 2 * no_buckets_ db ∧
      (∀ i l x, buckets_ db' !! i = Some l → x ∈ l →
                i = N.to_nat (node_hash x) mod no_buckets_ db') ∧
      entries db' ≡ₚ entries db ∧
      (∀ l, l ∈ buckets_ db' → chain_sorted l).
Proof.
  eexists. split; [vm_compute; reflexivity|].
  match goal with |- reachable ?d ∧ _ =>
    assert (reachable d) as Hreach
  end.
  { exists 2, 1%double, small_table_calls.
    split; [lia|]. split; [by_decide|vm_compute; reflexivity]. }
  split; [exact Hreach|]. exact (rehash_relinks _ Hreach).
Defined.

(** ** Calls that add nothing *)

(** A completed call whose status is not [new_string] returns the table as
    [grow_if_needed] left it, and its hash was stored before. *)
Lemma run_call_rejected db c st db' :
  wf db → run_call db c = Some (st, db') → st ≠ new_string →
  grow_if_needed db = Some db' ∧ wf db' ∧ entries db' ≡ₚ entries db ∧
  no_items_ db' = no_items_ db ∧ call_hash c ∈ hashes (entries db).
Proof.
  intros Hwf Hrun Hst.
  assert (∃ str n, insert db (call_hash c) str n = Some (st, db'))
    as (str & n & Hins).
  { destruct c as [h str n|h p str n]; simpl in *; [eauto|].
    destruct (insert_prefix_cases db h p str n _ Hwf Hrun) as (X & _ & _ & ?).
    eauto. }
  destruct (insert_cases _ _ _ _ _ _ Hwf Hins)
    as (db1 & Hgrow & Hwf1 & Hperm & Hitems & [(_ & -> & x & _ & Hx & <- & _)|(? & _)]);
    [|done].
  do 4 (split; [done|]). apply list_elem_of_fmap. eauto.
Qed.

(** C8. In every reachable state: a completed [insert] or [insert_prefix]
    that returns [old_string] or [collision] leaves the stored entries and
    the item count as they were, so every lookup, that of the call's own
    hash included, answers as before; and inserting a pair under a hash not
    yet stored, twice, returns [new_string] then [old_string], the item
    count going up by one at the first call only. *)
Theorem rejected_insert_changes_nothing db :
  reachable db →
  (∀ c st db', run_call db c = Some (st, db') → st ≠ new_string →
     entries db' ≡ₚ entries db ∧ no_items_ db' = no_items_ db ∧
     is_Some (lookup db (call_hash c)) ∧
     ∀ h, lookup db' h = lookup db h) ∧
  (∀ h str n, lookup db h = None → valid_input str n →
     ∃ db1 db2,
       insert db h str n = Some (new_string, db1) ∧
       insert db1 h str n = Some (old_string, db2) ∧
       no_items_ db1 = S (no_items_ db) ∧ no_items_ db2 = no_items_ db1 ∧
       lookup db2 h = Some (c_str (take n str))).
Proof.
  intros Hwf%reachable_wf. split.
  - intros c st db' Hrun Hst.
    destruct (run_call_rejected db c st db' Hwf Hrun Hst)
      as (_ & Hwf' & Hperm & Hitems & Hin).
    split; [done|]. split; [done|]. split.
    + destruct (lookup db (call_hash c)) eqn:E; [done|].
      by apply lookup_None in E.
    + intros h. by apply lookup_perm.
  - intros h str n Habs%lookup_None [Hlen Hfree]; [|done].
    destruct (insert_fresh db h str n Hwf Habs)
      as (d & db1 & _ & Hins1 & Hwf1 & Hperm1 & Hitems1 & _); [done|].
    set (x := Node n h (c_str (take n str))) in *.
    assert (x ∈ entries db1) as Hx by (rewrite Hperm1; apply elem_of_cons; by left).
    destruct (insert_present db1 x str n Hwf1 Hx) as (db2 & Hgrow2 & Hins2).
    destruct (grow_ok db1 Hwf1) as (db2' & Hgrow2' & Hwf2 & Hperm2 & _ & Hitems2 & _).
    rewrite Hgrow2 in Hgrow2'. injection Hgrow2' as <-.
    exists db1, db2. split; [done|]. split.
    + change (node_hash x) with h in Hins2.
      change (get_str x) with (take n str ++ [NUL]) in Hins2.
      rewrite Hins2, strncmp_prefix by done. by rewrite bool_decide_eq_true_2.
    + split; [done|]. split; [done|]. apply lookup_Some; [done|].
      exists x. split; [by rewrite Hperm2|done].
Qed.

Lemma rejected_insert_changes_nothing_witness :
  ∃ db,
    run_calls (new_map_database 2 1) small_table_calls = Some db ∧
    reachable db ∧
    (∃ db', run_call db (call_insert 2 (bytes "xy") 2) = Some (collision, db') ∧
            entries db' ≡ₚ entries db ∧ no_items_ db' = no_items_ db ∧
            lookup db' 2 = Some (c_str (bytes "cd"))) ∧
    (∃ db1 db2,
       insert db 7 (bytes "pq") 2 = Some (new_string, db1) ∧
       insert db1 7 (bytes "pq") 2 = Some (old_string, db2) ∧
       no_items_ db1 = S (no_items_ db) ∧ no_items_ db2 = no_items_ db1 ∧
       lookup db2 7 = Some (c_str (take 2 (bytes "pq")))).
Proof.
  eexists. split; [vm_compute; reflexivity|].
  match goal with |- reachable ?d ∧ _ =>
    assert (reachable d) as Hreach
  end.
  { exists 2, 1%double, small_table_calls.
    split; [lia|]. split; [by_decide|vm_compute; reflexivity]. }
  split; [exact Hreach|].
  destruct (rejected_insert_changes_nothing _ Hreach) as [Hrej Htwice].
  split.
  - eexists. split; [vm_compute; reflexivity|].
    match goal with |- entries ?d' ≡ₚ _ ∧ _ =>
      destruct (Hrej (call_insert 2 (bytes "xy") 2) collision d')
        as (Hperm & Hitems & _ & Hlook); [vm_compute; reflexivity|done|]
    end.
    split; [exact Hperm|]. split; [exact Hitems|].
    rewrite Hlook. vm_compute. reflexivity.
  - apply Htwice; [vm_compute; reflexivity|by_decide].
Defined.

(** C10. In every reachable state whose item count plus one reaches the
    growth threshold, a completed [insert] or [insert_prefix] doubles the
    bucket count whatever its status; when the status is [old_string] or
    [collision] the entries and the item count are nevertheless unchanged. *)
Theorem growth_precedes_duplicate_check db c st db' :
  reachable db → next_resize_ db ≤ no_items_ db + 1 →
  run_call db c = Some (st, db') →
  no_buckets_ db' = 2 * no_buckets_ db ∧
  (st ≠ new_string →
   no_items_ db' = no_items_ db ∧ entries db' ≡ₚ entries db).
Proof.
  intros Hwf%reachable_wf Hfull Hrun. split.
  - rewrite (run_call_buckets _ _ _ _ Hrun).
    by apply Nat.leb_le in Hfull as ->.
  - intros Hst.
    by destruct (run_call_rejected db c st db' Hwf Hrun Hst) as (_ & _ & ? & ? & _).
Qed.

Lemma growth_precedes_duplicate_check_witness :
  ∃ db db',
    run_calls (new_map_database 1 1) [call_insert 0 (bytes "a") 1] = Some db ∧
    reachable db ∧ next_resize_ db ≤ no_items_ db + 1 ∧
    run_call db (call_insert 0 (bytes "a") 1) = Some (old_string, db') ∧
    no_buckets_ db = 2 ∧ no_buckets_ db' = 4 ∧
    no_buckets_ db' = 2 * no_buckets_ db ∧
    (old_string ≠ new_string →
     no_items_ db' = no_items_ db ∧ entries db' ≡ₚ entries db).
Proof.
  eexists. eexists. split; [vm_compute; reflexivity|].
  match goal with |- reachable ?d ∧ _ =>
    assert (reachable d) as Hreach
  end.
  { exists 1, 1%double, [call_insert 0 (bytes "a") 1].
    split; [lia|]. split; [by_decide|vm_compute; reflexivity]. }
  split; [exact Hreach|].
  split; [vm_compute; lia|]. split; [vm_compute; reflexivity|].
  split; [reflexivity|]. split; [reflexivity|].
  apply (growth_precedes_duplicate_check _ (call_insert 0 (bytes "a") 1) old_string _ Hreach);
    [vm_compute; lia|vm_compute; reflexivity].
Defined.

(** ** The status of [insert] *)

(** On a stored hash [insert] answers [old_string] exactly when the bytes
    offered are a prefix of the stored string. *)
Lemma insert_stored_status db h str n S :
  wf db → lookup db h = Some (c_str S) → valid_input str n →
  ∃ db1, grow_if_needed db = Some db1 ∧
         insert db h str n
         = Some (if bool_decide (take n str `prefix_of` S)
                 then old_string else collision, db1).
Proof.
  intros Hwf Hlook [Hlen Hfree].
  destruct (lookup_c_str db h _ Hwf Hlook) as (S' & HS & Heq).
  apply app_inj_tail in Heq as [<- _].
  apply lookup_Some in Hlook as (x & Hx & <- & Hstr); [|done].
  destruct (insert_present db x str n Hwf Hx) as (db1 & Hgrow & ->).
  exists db1. split; [done|]. rewrite Hstr. unfold c_str.
  by rewrite strncmp_prefix.
Qed.

(** C2, the failing input. ["abcd"] is stored under hash 7; inserting the
    different string ["ab"] under the same hash returns [old_string], not
    [collision], and the stored string stays ["abcd"]. *)
Theorem insert_shorter_string_is_old :
  ∃ db1 db2,
    insert (new_map_database 4 1) 7 (bytes "abcd") 4 = Some (new_string, db1) ∧
    lookup db1 7 = Some (c_str (bytes "abcd")) ∧
    insert db1 7 (bytes "ab") 2 = Some (old_string, db2) ∧
    lookup db2 7 = Some (c_str (bytes "abcd")) ∧
    bytes "ab" ≠ bytes "abcd".
Proof.
  eexists. eexists. split; [vm_compute; reflexivity|].
  split; [vm_compute; reflexivity|]. split; [vm_compute; reflexivity|].
  split; [vm_compute; reflexivity|]. discriminate.
Qed.

(** ** [insert_prefix] *)

(** The default implementation, for any store: with the prefix stored as
    [X] and a null-terminated suffix, it is [insert] of the concatenation. *)
Lemma default_insert_prefix_unfold {DB} {store : basic_database DB}
    (d : DB) h p X sfx t n :
  nul_free X → nul_free sfx → db_lookup d p = Some (c_str X) →
  default_insert_prefix d h p (sfx ++ NUL :: t) n
  = db_insert d h (c_str (X ++ sfx)) (length X + n).
Proof.
  intros HX Hsfx Hp. unfold default_insert_prefix. rewrite Hp.
  cbn [mbind option_bind]. unfold c_str.
  rewrite (std_string_nul_free X []) by done. cbn [mbind option_bind].
  by rewrite (std_string_nul_free sfx t).
Qed.

(** X19. In every reachable state where the prefix hash [p] is stored with
    string [X] and the hash [h] is not stored: [insert] of [X] followed by
    the suffix, with length [len X + n], creates the entry [X ++ suffix] and
    returns [new_string]; the override [map_database::insert_prefix] returns
    the same status and the same table for every suffix of [n] bytes; the
    default [basic_database::insert_prefix] does so when the suffix buffer
    is null-terminated, and then, for any store, it is [insert] of the
    concatenation. *)
Theorem insert_prefix_is_insert_of_concatenation db h p X str n :
  reachable db → lookup db p = Some (c_str X) → lookup db h = None →
  valid_input str n →
  ∃ db',
    insert db h (X ++ str) (length X + n) = Some (new_string, db') ∧
    lookup db' h = Some (c_str (X ++ take n str)) ∧
    insert_prefix db h p str n = Some (new_string, db') ∧
    (is_Some (std_string str) →
     default_insert_prefix db h p str n = Some (new_string, db')) ∧
    (∀ DB (store : basic_database DB) (d : DB) sfx t,
       nul_free sfx → db_lookup d p = Some (c_str X) →
       default_insert_prefix d h p (sfx ++ NUL :: t) n
       = db_insert d h (c_str (X ++ sfx)) (length X + n)).
Proof.
  intros Hwf%reachable_wf Hp Hh Hvalid.
  destruct (lookup_c_str db p _ Hwf Hp) as (X' & HX & Heq).
  apply app_inj_tail in Heq as [<- _].
  apply lookup_None in Hh; [|done].
  destruct (insert_fresh db h (X ++ str) (length X + n) Hwf Hh)
    as (db1 & db' & _ & Hins & Hwf' & Hperm & _).
  { by apply valid_input_app. }
  rewrite take_app_valid in Hperm.
  exists db'. split; [done|]. split.
  { apply lookup_Some; [done|].
    exists (Node (length X + n) h (c_str (X ++ take n str))). split; [|done].
    rewrite Hperm. apply elem_of_cons. by left. }
  split; [by rewrite (insert_prefix_as_insert db h p X str n Hwf Hp)|].
  split.
  - intros [sfx Hsfx]. apply std_string_inv in Hsfx as (Hfree & t & ->).
    rewrite (default_insert_prefix_unfold (store := map_database_basic)
               db h p X sfx t n HX Hfree Hp).
    simpl. unfold c_str. rewrite <-(assoc_L (++)). simpl.
    rewrite <-Hins, !(assoc_L (++) X sfx).
    apply (insert_upto_nul db h (X ++ sfx) [] t).
  - intros DB store d sfx t Hsfx Hd.
    by apply default_insert_prefix_unfold.
Qed.

Lemma insert_prefix_is_insert_of_concatenation_witness :
  ∃ db db',
    run_calls (new_map_database 2 1) prefix_table_calls = Some db ∧
    reachable db ∧ lookup db 1 = Some (c_str (bytes "X")) ∧ lookup db 6 = None ∧
    valid_input (bytes "abc" ++ [NUL]) 2 ∧
    insert db 6 (bytes "X" ++ bytes "abc" ++ [NUL]) (1 + 2) = Some (new_string, db') ∧
    lookup db' 6 = Some (c_str (bytes "Xab")) ∧
    insert_prefix db 6 1 (bytes "abc" ++ [NUL]) 2 = Some (new_string, db') ∧
    default_insert_prefix db 6 1 (bytes "abc" ++ [NUL]) 2 = Some (new_string, db').
Proof.
  eexists. eexists. split; [vm_compute; reflexivity|].
  match goal with |- reachable ?d ∧ _ =>
    assert (reachable d) as Hreach
  end.
  { exists 2, 1%double, prefix_table_calls.
    split; [lia|]. split; [by_decide|vm_compute; reflexivity]. }
  split; [exact Hreach|].
  split; [vm_compute; reflexivity|]. split; [vm_compute; reflexivity|].
  assert (valid_input (bytes "abc" ++ [NUL]) 2) as Hvalid.
  { unfold valid_input, nul_free. by_decide. }
  split; [exact Hvalid|].
  destruct (insert_prefix_is_insert_of_concatenation _ 6 1 (bytes "X")
              (bytes "abc" ++ [NUL]) 2 Hreach)
    as (d' & Hins & Hlook & Hpre & Hdef & _);
    [vm_compute; reflexivity|vm_compute; reflexivity|exact Hvalid|].
  assert (Some (new_string, d') = Some (new_string, _)) as Heq
    by (rewrite <-Hins; vm_compute; reflexivity).
  injection Heq as Heq. subst d'.
  split; [exact Hins|]. split; [exact Hlook|]. split; [exact Hpre|].
  apply Hdef. vm_compute. eauto.
Defined.

(** C3, the failing input. ["X"] is stored under hash 1 and hash 6 is not
    stored; the suffix is an array of the two bytes ["ab"], which the
    interface allows ("does not need to be null-terminated"). [insert] of the
    concatenation and the override of [map_database] store ["Xab"] and
    return [new_string] with the same table; the default
    [basic_database::insert_prefix] builds [prefix_str + str], which reads
    the suffix up to a terminator that is not there. *)
Theorem default_insert_prefix_reads_past_suffix :
  ∃ db db',
    run_calls (new_map_database 2 1) prefix_table_calls = Some db ∧
    lookup db 1 = Some (c_str (bytes "X")) ∧ lookup db 6 = None ∧
    valid_input (bytes "ab") 2 ∧
    insert db 6 (bytes "X" ++ bytes "ab") (1 + 2) = Some (new_string, db') ∧
    insert_prefix db 6 1 (bytes "ab") 2 = Some (new_string, db') ∧
    lookup db' 6 = Some (c_str (bytes "Xab")) ∧
    default_insert_prefix db 6 1 (bytes "ab") 2 = None.
Proof.
  eexists. eexists. split; [vm_compute; reflexivity|].
  split; [vm_compute; reflexivity|]. split; [vm_compute; reflexivity|].
  split; [by_decide|]. split; [vm_compute; reflexivity|].
  split; [vm_compute; reflexivity|]. split; vm_compute; reflexivity.
Qed.

(** C4, as the specification states it, fails. The tables agree outside
    the prefix bucket and hold the target hash 2, yet the same
    [insert_prefix] call returns [old_string] on one and [collision] on the
    other; on a table that holds the target hash but not the prefix hash
    the call faults. *)
Lemma insert_prefix_depends_on_prefix_bucket :
  ∃ dbX dbY dbZ,
    run_calls (new_map_database 4 1) table_X_calls = Some dbX ∧
    run_calls (new_map_database 4 1) table_Y_calls = Some dbY ∧
    run_calls (new_map_database 4 1) [call_insert 2 (bytes "Xa") 2] = Some dbZ ∧
    bucket_of 1 (no_buckets_ dbX) = Some 1 ∧
    dbY = MapDatabase (<[1 := [Node 1 1 (c_str (bytes "Y"))]]> (buckets_ dbX))
            (no_items_ dbX) (no_buckets_ dbX) (max_load_factor_ dbX)
            (next_resize_ dbX) ∧
    lookup dbX 2 = Some (c_str (bytes "Xa")) ∧
    lookup dbY 2 = Some (c_str (bytes "Xa")) ∧
    lookup dbZ 2 = Some (c_str (bytes "Xa")) ∧
    fst <$> insert_prefix dbX 2 1 (bytes "a") 1 = Some old_string ∧
    fst <$> insert_prefix dbY 2 1 (bytes "a") 1 = Some collision ∧
    insert_prefix dbZ 2 1 (bytes "a") 1 = None.
Proof.
  do 3 eexists. do 3 (split; [vm_compute; reflexivity|]).
  repeat split; vm_compute; reflexivity.
Qed.

(** C4, amended. In every reachable state that holds the target hash [h],
    [map_database::insert_prefix] looks the prefix up first: without an
    entry for the prefix hash it faults; with the prefix stored as [X] it
    creates no entry, and its status comes from comparing [X] followed by
    the suffix with the string stored under [h]: [old_string] when they are
    equal, [collision] when the concatenation is not even a prefix of the
    stored string. *)
Theorem insert_prefix_on_stored_hash db h p str n S :
  reachable db → lookup db h = Some (c_str S) →
  (lookup db p = None → insert_prefix db h p str n = None) ∧
  (∀ X, lookup db p = Some (c_str X) → valid_input str n →
     ∃ db1 st,
       grow_if_needed db = Some db1 ∧ entries db1 ≡ₚ entries db ∧
       insert_prefix db h p str n = Some (st, db1) ∧
       st ≠ new_string ∧
       (X ++ take n str = S → st = old_string) ∧
       (¬ (X ++ take n str) `prefix_of` S → st = collision)).
Proof.
  intros Hwf%reachable_wf Hh. split.
  - by apply insert_prefix_no_prefix.
  - intros X Hp Hvalid.
    destruct (lookup_c_str db p _ Hwf Hp) as (X' & HX & Heq).
    apply app_inj_tail in Heq as [<- _].
    rewrite (insert_prefix_as_insert db h p X str n Hwf Hp).
    destruct (insert_stored_status db h (X ++ str) (length X + n) S Hwf Hh)
      as (db1 & Hgrow & ->); [by apply valid_input_app|].
    destruct (grow_ok db Hwf) as (db1' & Hgrow' & _ & Hperm & _).
    rewrite Hgrow in Hgrow'. injection Hgrow' as <-.
    rewrite take_app_valid. eexists db1, _.
    split; [done|]. split; [done|]. split; [done|].
    case_bool_decide as Hpre; (split; [done|]); split; try done.
    intros Heq. destruct Hpre. by rewrite Heq.
Qed.

Lemma insert_prefix_on_stored_hash_witness :
  ∃ dbX db1,
    run_calls (new_map_database 4 1) table_X_calls = Some dbX ∧
    reachable dbX ∧
    lookup dbX 2 = Some (c_str (bytes "Xa")) ∧
    lookup dbX 1 = Some (c_str (bytes "X")) ∧
    valid_input (bytes "b") 1 ∧
    grow_if_needed dbX = Some db1 ∧
    entries db1 ≡ₚ entries dbX ∧
    insert_prefix dbX 2 1 (bytes "b") 1 = Some (collision, db1).
Proof.
  eexists. eexists. split; [vm_compute; reflexivity|].
  match goal with |- reachable ?d ∧ _ =>
    assert (reachable d) as Hreach
  end.
  { exists 4, 1%double, table_X_calls.
    split; [lia|]. split; [by_decide|vm_compute; reflexivity]. }
  split; [exact Hreach|].
  split; [vm_compute; reflexivity|]. split; [vm_compute; reflexivity|].
  assert (valid_input (bytes "b") 1) as Hvalid.
  { unfold valid_input, nul_free. by_decide. }
  split; [exact Hvalid|].
  destruct (insert_prefix_on_stored_hash _ 2 1 (bytes "b") 1 (bytes "Xa") Hreach)
    as [_ Hstored]; [vm_compute; reflexivity|].
  destruct (Hstored (bytes "X")) as (d1 & st & Hgrow & Hperm & Hins & _ & _ & Hcol);
    [vm_compute; reflexivity|exact Hvalid|].
  rewrite Hcol in Hins by (intros Hpre; by apply (bool_decide_pack _) in Hpre).
  assert (Some d1 = Some _) as Heq by (rewrite <-Hgrow; vm_compute; reflexivity).
  injection Heq as Heq. subst d1.
  split; [exact Hgrow|]. split; [exact Hperm|]. exact Hins.
Defined.

Section try_generate_facts.
Context {STRID_T G : Type}.
Variable hash_code : STRID_T → STORAGE_T.
Variable string_of : STRID_T → buffer.
Variable attempt : G → insert_status * STRID_T * G.
Variable handler : generation_error_handler.

Abbreviation loop_any :=
  (try_generate_loop STRID_T G hash_code string_of attempt handler).
Abbreviation attempts := (after_attempts STRID_T G attempt).

(** What the handler answers to the attempt made in state [g], as the
    [no]-th attempt. *)
Abbreviation asked no name g :=
  (handler no name (hash_code (attempt g).1.2) (string_of (attempt g).1.2)).

Lemma loop_first_new k fuel name counter g :
  (∀ i, i < k →
     (attempt (attempts i g)).1.1 ≠ new_string ∧
     asked (counter + i) name (attempts i g) = inr true) →
  (attempt (attempts k g)).1.1 = new_string →
  k ≤ fuel →
  loop_any fuel name counter (attempt g).1.1 (attempt g).1.2 (attempt g).2
  = returned (attempt (attempts k g)).1.2 (attempts (S k) g).
Proof.
  revert fuel counter g.
  induction k as [|k IH]; intros fuel counter g Hfail Hnew Hfuel.
  - cbn [after_attempts] in *. destruct fuel; simpl; by rewrite Hnew.
  - destruct fuel as [|fuel]; [lia|].
    destruct (Hfail 0) as [Hst Hask]; [lia|].
    cbn [after_attempts] in Hst, Hask. rewrite Nat.add_0_r in Hask.
    cbn [try_generate_loop].
    unfold handle_generation_error. rewrite Hask.
    assert (insert_status_eqb (attempt g).1.1 new_string = false) as ->
      by (by destruct ((attempt g).1.1)).
    specialize (IH fuel (S counter) (attempt g).2).
    destruct (attempt (attempt g).2) as [[status' result'] g''] eqn:Hnext.
    cbn [fst snd] in IH. rewrite IH; [done| |done|lia].
    intros i Hi. destruct (Hfail (S i)) as [Hst' Hask']; [lia|].
    cbn [after_attempts] in Hst', Hask'.
    by rewrite Nat.add_succ_r in Hask'.
Qed.

Lemma loop_never_ends fuel name counter status result g :
  (∀ g', (attempt g').1.1 ≠ new_string) →
  (∀ no h s, handler no name h s = inr true) →
  status ≠ new_string →
  loop_any fuel name counter status result g = out_of_fuel.
Proof.
  intros Hfail Hretry. revert counter status result g.
  induction fuel as [|fuel IH]; intros counter status result g Hst;
    cbn [try_generate_loop]; unfold handle_generation_error;
    rewrite Hretry;
    (assert (insert_status_eqb status new_string = false) as ->
       by (by destruct status)); [done|].
  pose proof (Hfail g) as Hnext.
  destruct (attempt g) as [[status' result'] g']. by apply IH.
Qed.

(** [k] failed attempts that the handler answers with retry take the loop
    to attempt [k + 1]. *)
Lemma loop_skip k fuel name counter g :
  (∀ i, i < k →
     (attempt (attempts i g)).1.1 ≠ new_string ∧
     asked (counter + i) name (attempts i g) = inr true) →
  loop_any (k + fuel) name counter (attempt g).1.1 (attempt g).1.2 (attempt g).2
  = loop_any fuel name (counter + k)
      (attempt (attempts k g)).1.1 (attempt (attempts k g)).1.2
      (attempts (S k) g).
Proof.
  revert counter g. induction k as [|k IH]; intros counter g Hfail.
  - by rewrite Nat.add_0_r.
  - destruct (Hfail 0) as [Hst Hask]; [lia|].
    cbn [after_attempts] in Hst, Hask. rewrite Nat.add_0_r in Hask.
    cbn [Nat.add try_generate_loop]. unfold handle_generation_error.
    rewrite Hask.
    assert (insert_status_eqb (attempt g).1.1 new_string = false) as ->
      by (by destruct ((attempt g).1.1)).
    specialize (IH (S counter) (attempt g).2).
    destruct (attempt (attempt g).2) as [[status' result'] g''] eqn:Hnext.
    cbn [fst snd] in IH. rewrite IH.
    + cbn [after_attempts]. by rewrite Nat.add_succ_r.
    + intros i Hi. destruct (Hfail (S i)) as [Hst' Hask']; [lia|].
      cbn [after_attempts] in Hst', Hask'. by rewrite Nat.add_succ_r in Hask'.
Qed.

(** How one turn of the loop ends, whatever fuel is left. *)
Lemma loop_returns_new fuel name counter result g :
  loop_any fuel name counter new_string result g = returned result g.
Proof. by destruct fuel. Qed.

Lemma loop_returns_on_stop fuel name counter status result g :
  status ≠ new_string →
  handler counter name (hash_code result) (string_of result) = inr false →
  loop_any fuel name counter status result g = returned result g.
Proof.
  intros Hst Hask.
  destruct fuel; simpl; unfold handle_generation_error; rewrite Hask;
    by destruct status.
Qed.

Lemma loop_throws fuel name counter status result g e :
  status ≠ new_string →
  handler counter name (hash_code result) (string_of result) = inl e →
  loop_any fuel name counter status result g = threw e g.
Proof.
  intros Hst Hask.
  destruct fuel; simpl; unfold handle_generation_error; rewrite Hask;
    by destruct status.
Qed.

(** [try_generate] is the loop entered with the first attempt. *)
Lemma try_generate_unfold fuel name g :
  try_generate STRID_T G hash_code string_of attempt handler fuel name g
  = loop_any fuel name 1 (attempt g).1.1 (attempt g).1.2 (attempt g).2.
Proof. unfold try_generate. by destruct (attempt g) as [[status result] g']. Qed.

(** Among the first [n] attempts either one is new, and then a first one,
    or none is. *)
Lemma first_new_or_none n g :
  (∃ k, k < n ∧ (∀ i, i < k → (attempt (attempts i g)).1.1 ≠ new_string) ∧
        (attempt (attempts k g)).1.1 = new_string) ∨
  (∀ i, i < n → (attempt (attempts i g)).1.1 ≠ new_string).
Proof.
  induction n as [|n [(k & Hk & Hfail & Hnew)|Hnone]].
  - right. intros i Hi. lia.
  - left. exists k. split; [lia|done].
  - destruct ((attempt (attempts n g)).1.1) eqn:Hst.
    + right. intros i Hi. destruct (decide (i = n)) as [->|]; [by rewrite Hst|].
      apply Hnone. lia.
    + left. exists n. split; [lia|done].
    + right. intros i Hi. destruct (decide (i = n)) as [->|]; [by rewrite Hst|].
      apply Hnone. lia.
Qed.

End try_generate_facts.

(** C9. The default handler asks for a retry while the attempt count is
    below 8 and throws [generation_error] once it reaches 8. Under it
    [try_generate] runs the generator again after every attempt that meets
    a stored string: when attempt [k + 1] is the first new one among the
    first 8, it returns the result of that attempt, after [k + 1] runs of
    the generator; when none of the first 8 is new, it throws after the
    8th; and one of the two happens with 7 retries of fuel. Under any
    handler that answers retry to the first [k] attempts and stop to
    attempt [k + 1], the result of attempt [k + 1], the last one, is
    returned as it is. *)
Theorem generation_retry_protocol
    (STRID_T G : Type) (hash_code : STRID_T → STORAGE_T)
    (string_of : STRID_T → buffer) (attempt : G → insert_status * STRID_T * G)
    (name : string) :
  let run := try_generate STRID_T G hash_code string_of attempt in
  let state k g := after_attempts STRID_T G attempt k g in
  let status k g := (attempt (state k g)).1.1 in
  let result k g := (attempt (state k g)).1.2 in
  (∀ no h s, no < 8 → default_generation_error_handler no name h s = inr true) ∧
  (∀ no h s, 8 ≤ no →
     default_generation_error_handler no name h s = inl (generation_error name)) ∧
  (∀ fuel g k, 7 ≤ fuel → k < 8 →
     (∀ i, i < k → status i g ≠ new_string) → status k g = new_string →
     run default_generation_error_handler fuel name g
     = returned (result k g) (state (S k) g)) ∧
  (∀ fuel g, 7 ≤ fuel → (∀ i, i < 8 → status i g ≠ new_string) →
     run default_generation_error_handler fuel name g
     = threw (generation_error name) (state 8 g)) ∧
  (∀ fuel g, 7 ≤ fuel →
     (∃ k, k < 8 ∧
           run default_generation_error_handler fuel name g
           = returned (result k g) (state (S k) g)) ∨
     run default_generation_error_handler fuel name g
     = threw (generation_error name) (state 8 g)) ∧
  (∀ handler fuel g k, k ≤ fuel →
     (∀ i, i < k →
        status i g ≠ new_string ∧
        handler (S i) name (hash_code (result i g)) (string_of (result i g))
        = inr true) →
     status k g ≠ new_string →
     handler (S k) name (hash_code (result k g)) (string_of (result k g))
     = inr false →
     run handler fuel name g = returned (result k g) (state (S k) g)).
Proof.
  intros run state status result. subst run state status result. cbv beta.
  assert (∀ no h s, no < 8 →
            default_generation_error_handler no name h s = inr true) as Hretry.
  { intros no h s Hno. unfold default_generation_error_handler, no_tries_generation.
    destruct (Nat.leb_spec 8 no); [lia|done]. }
  assert (∀ no h s, 8 ≤ no →
            default_generation_error_handler no name h s
            = inl (generation_error name)) as Hthrow.
  { intros no h s Hno. unfold default_generation_error_handler, no_tries_generation.
    destruct (Nat.leb_spec 8 no); [done|lia]. }
  assert (∀ fuel g k, 7 ≤ fuel → k < 8 →
            (∀ i, i < k →
               (attempt (after_attempts STRID_T G attempt i g)).1.1 ≠ new_string) →
            (attempt (after_attempts STRID_T G attempt k g)).1.1 = new_string →
            try_generate STRID_T G hash_code string_of attempt
              default_generation_error_handler fuel name g
            = returned (attempt (after_attempts STRID_T G attempt k g)).1.2
                (after_attempts STRID_T G attempt (S k) g)) as Hfirst.
  { intros fuel g k Hfuel Hk Hfail Hnew. rewrite try_generate_unfold.
    replace fuel with (k + (fuel - k)) by lia.
    rewrite loop_skip; [rewrite Hnew; apply loop_returns_new|].
    intros i Hi. split; [by apply Hfail|]. apply Hretry. lia. }
  assert (∀ fuel g, 7 ≤ fuel →
            (∀ i, i < 8 →
               (attempt (after_attempts STRID_T G attempt i g)).1.1 ≠ new_string) →
            try_generate STRID_T G hash_code string_of attempt
              default_generation_error_handler fuel name g
            = threw (generation_error name)
                (after_attempts STRID_T G attempt 8 g)) as Hlast.
  { intros fuel g Hfuel Hfail. rewrite try_generate_unfold.
    replace fuel with (7 + (fuel - 7)) by lia.
    rewrite loop_skip.
    - apply loop_throws; [apply Hfail; lia|]. apply Hthrow. lia.
    - intros i Hi. split; [apply Hfail; lia|]. apply Hretry. lia. }
  split; [done|]. split; [done|]. split; [done|]. split; [done|]. split.
  - intros fuel g Hfuel.
    destruct (first_new_or_none attempt 8 g) as [(k & Hk & Hfail & Hnew)|Hnone].
    + left. exists k. split; [done|]. by apply Hfirst.
    + right. by apply Hlast.
  - intros handler fuel g k Hfuel Hfail Hst Hstop. rewrite try_generate_unfold.
    replace fuel with (k + (fuel - k)) by lia.
    rewrite loop_skip; [by apply loop_returns_on_stop|].
    intros i Hi. exact (Hfail i Hi).
Qed.

Lemma generation_retry_protocol_witness :
  try_generate nat nat N.of_nat (λ _, []) third_time_lucky
    default_generation_error_handler 7 "counter" 0
  = returned 2 3 ∧
  try_generate nat nat N.of_nat (λ _, []) stuck_generator
    default_generation_error_handler 7 "counter" 0
  = threw (generation_error "counter") 8.
Proof.
  split.
  - destruct (generation_retry_protocol nat nat N.of_nat (λ _, [])
                third_time_lucky "counter") as (_ & _ & Hfirst & _).
    apply (Hfirst 7 0 2); [lia|lia| |reflexivity].
    intros i Hi. destruct i as [|[|i]]; [by vm_compute|by vm_compute|lia].
  - destruct (generation_retry_protocol nat nat N.of_nat (λ _, [])
                stuck_generator "counter") as (_ & _ & _ & Hlast & _).
    apply (Hlast 7 0); [lia|]. by intros i _.
Defined.

(** * Further properties of the code *)

(** ** hash.hpp: the FNV-1a loop *)

Example sid_hash32_a :
  sid_hash32 false (bytes "a" ++ [NUL]) 0 = Some 0xe40c292c%Z.
Proof. vm_compute. reflexivity. Qed.

Section fnv_facts.
Local Open Scope Z_scope.
Implicit Types (sg : bool) (w h p : Z) (c : ascii) (s t u a b : buffer).

Lemma ascii_byte_range c : 0 <= Z.of_N (N_of_ascii c) < 256.
Proof. pose proof (N_ascii_bounded c). lia. Qed.

Lemma pow2_ge_256 w : 8 <= w → 256 <= 2 ^ w.
Proof. intros Hw. change 256 with (2 ^ 8). apply Z.pow_le_mono_r; lia. Qed.

Lemma char_to_T_signed_high w v :
  256 <= 2 ^ w → 128 <= v < 256 → (v - 256) mod 2 ^ w = v - 256 + 2 ^ w.
Proof.
  intros Hw Hv. symmetry. apply (Z.mod_unique _ _ (-1)); [left|]; lia.
Qed.

Lemma char_to_T_range sg w c : 8 <= w → 0 <= char_to_T sg w c < 2 ^ w.
Proof.
  intros Hw%pow2_ge_256. pose proof (ascii_byte_range c) as Hc.
  unfold char_to_T. destruct sg; simpl; [|lia].
  destruct (Z.leb_spec 128 (Z.of_N (N_of_ascii c))); [|lia].
  apply Z.mod_pos_bound. lia.
Qed.

Lemma char_to_T_inj sg w c c' :
  8 <= w → char_to_T sg w c = char_to_T sg w c' → c = c'.
Proof.
  intros Hw%pow2_ge_256 Heq.
  pose proof (ascii_byte_range c) as Hc. pose proof (ascii_byte_range c') as Hc'.
  assert (Z.of_N (N_of_ascii c) = Z.of_N (N_of_ascii c')) as Hv.
  { unfold char_to_T in Heq. destruct sg; simpl in Heq; [|done].
    destruct (Z.leb_spec 128 (Z.of_N (N_of_ascii c)));
      destruct (Z.leb_spec 128 (Z.of_N (N_of_ascii c')));
      rewrite ?char_to_T_signed_high in Heq by lia; lia. }
  apply N2Z.inj in Hv.
  by rewrite <-(ascii_N_embedding c), <-(ascii_N_embedding c'), Hv.
Qed.

Lemma lxor_range w x y :
  0 <= w → 0 <= x < 2 ^ w → 0 <= y < 2 ^ w → 0 <= Z.lxor x y < 2 ^ w.
Proof.
  intros Hw Hx Hy.
  assert (0 <= Z.lxor x y) as Hnn by (apply Z.lxor_nonneg; lia).
  split; [done|].
  destruct (Z.eq_dec (Z.lxor x y) 0) as [->|Hne]; [lia|].
  destruct (Z.eq_dec x 0) as [->|Hx0]; [rewrite Z.lxor_0_l; lia|].
  destruct (Z.eq_dec y 0) as [->|Hy0]; [rewrite Z.lxor_0_r; lia|].
  apply Z.log2_lt_pow2; [lia|].
  pose proof (Z.log2_lxor x y ltac:(lia) ltac:(lia)) as Hlog.
  assert (Z.log2 x < w) by (apply Z.log2_lt_pow2; lia).
  assert (Z.log2 y < w) by (apply Z.log2_lt_pow2; lia).
  lia.
Qed.

Lemma lxor_cancel_l x y z : Z.lxor x y = Z.lxor x z → y = z.
Proof.
  intros Heq.
  rewrite <-(Z.lxor_0_l y), <-(Z.lxor_0_l z), <-(Z.lxor_nilpotent x).
  by rewrite !Z.lxor_assoc, Heq.
Qed.

Lemma lxor_cancel_r x y z : Z.lxor y x = Z.lxor z x → y = z.
Proof. rewrite !(Z.lxor_comm _ x). apply lxor_cancel_l. Qed.

(** Multiplying by the odd [FNV_32_PRIME] loses nothing modulo [2^w]. *)
Lemma mul_prime_inj w x y :
  0 <= w → 0 <= x < 2 ^ w → 0 <= y < 2 ^ w →
  (x * FNV_32_PRIME) mod 2 ^ w = (y * FNV_32_PRIME) mod 2 ^ w → x = y.
Proof.
  intros Hw Hx Hy Heq.
  assert (0 < 2 ^ w) as Hpos by lia.
  apply Z.cong_iff_0 in Heq.
  apply Z.mod_divide in Heq; [|lia].
  replace (x * FNV_32_PRIME - y * FNV_32_PRIME)
    with (FNV_32_PRIME * (x - y)) in Heq by ring.
  apply Z.gauss in Heq.
  - destruct Heq as [q Hq].
    assert (q = 0) by nia. subst q. lia.
  - apply (Z.Symmetric_coprime FNV_32_PRIME), Z.coprime_pow_r; [done|].
    reflexivity.
Qed.

(** One turn of the loop, as a function of the hash value and the byte. *)
Lemma fnv_step_range sg w h c :
  0 <= w → 0 <= (Z.lxor h (char_to_T sg w c) * FNV_32_PRIME) mod 2 ^ w < 2 ^ w.
Proof. intros Hw. apply Z.mod_pos_bound. lia. Qed.

Lemma fnv_step_inj sg w h h' c c' :
  8 <= w → 0 <= h < 2 ^ w → 0 <= h' < 2 ^ w →
  (Z.lxor h (char_to_T sg w c) * FNV_32_PRIME) mod 2 ^ w
  = (Z.lxor h' (char_to_T sg w c') * FNV_32_PRIME) mod 2 ^ w →
  Z.lxor h (char_to_T sg w c) = Z.lxor h' (char_to_T sg w c').
Proof.
  intros Hw Hh Hh' Heq.
  apply (mul_prime_inj w); [lia| | |done];
    apply lxor_range; try lia; by apply char_to_T_range.
Qed.

(** On a C string the loop ends at the terminator, whatever follows it and
    whatever [prime] is passed. *)
Lemma FNV1aHash_terminated sg w s t h p :
  nul_free s → 0 <= w → 0 <= h < 2 ^ w →
  ∃ r, 0 <= r < 2 ^ w ∧
       ∀ t' p', FNV1aHash sg w (s ++ NUL :: t') h p' = Some r.
Proof.
  intros Hs Hw. revert h. induction Hs as [|c s Hc Hs IH]; intros h Hh; simpl.
  - by exists h.
  - rewrite Hc. apply IH. by apply fnv_step_range.
Qed.

Lemma FNV1aHash_unterminated sg w s h p :
  nul_free s → FNV1aHash sg w s h p = None.
Proof.
  intros Hs. revert h. induction Hs as [|c s Hc Hs IH]; intros h; simpl; [done|].
  by rewrite Hc.
Qed.

Lemma FNV1aHash_app sg w s u h p :
  nul_free s →
  FNV1aHash sg w (s ++ u) h p
  = (h' ← FNV1aHash sg w (s ++ [NUL]) h p; FNV1aHash sg w u h' p).
Proof.
  intros Hs. revert h. induction Hs as [|c s Hc Hs IH]; intros h; simpl; [done|].
  by rewrite Hc, IH.
Qed.

(** Over one and the same rest, different start values give different
    hashes. *)
Lemma FNV1aHash_start_inj sg w b t h h' p r :
  nul_free b → 8 <= w → 0 <= h < 2 ^ w → 0 <= h' < 2 ^ w →
  FNV1aHash sg w (b ++ NUL :: t) h p = Some r →
  FNV1aHash sg w (b ++ NUL :: t) h' p = Some r → h = h'.
Proof.
  intros Hb Hw. revert h h'.
  induction Hb as [|c b Hc Hb IH]; intros h h' Hh Hh'; simpl.
  - congruence.
  - rewrite Hc. intros H1 H2.
    pose proof (IH _ _ (fnv_step_range sg w h c ltac:(lia))
                  (fnv_step_range sg w h' c ltac:(lia)) H1 H2) as Hstep.
    apply fnv_step_inj in Hstep; [|done..]. by apply lxor_cancel_r in Hstep.
Qed.

End fnv_facts.

Section fnv_theorems.
Local Open Scope Z_scope.

(** X1. [sid_hash], 32 and 64 bit, is defined on every null-terminated
    buffer; its value fits the width and depends on the bytes before the
    first NUL only, not on what follows nor on the [hash] argument. On a
    buffer without NUL it reads past the end. *)
Theorem sid_hash_reads_c_string (sg : bool) (s : buffer) :
  nul_free s →
  ∃ r32 r64,
    0 <= r32 < 2 ^ 32 ∧ 0 <= r64 < 2 ^ 64 ∧
    (∀ t x, sid_hash32 sg (s ++ NUL :: t) x = Some r32) ∧
    (∀ t x, sid_hash64 sg (s ++ NUL :: t) x = Some r64) ∧
    (∀ x, sid_hash32 sg s x = None) ∧ (∀ x, sid_hash64 sg s x = None).
Proof.
  intros Hs.
  destruct (FNV1aHash_terminated sg 32 s [] FNV_32_BASIS FNV_32_PRIME Hs)
    as (r32 & Hr32 & H32); [lia|vm_compute; split; congruence|].
  destruct (FNV1aHash_terminated sg 64 s [] fnv_basis fnv_prime Hs)
    as (r64 & Hr64 & H64); [lia|vm_compute; split; congruence|].
  exists r32, r64. split; [done|]. split; [done|].
  split; [intros; apply H32|]. split; [intros; apply H64|].
  split; intros x; by apply FNV1aHash_unterminated.
Qed.

Lemma sid_hash_reads_c_string_witness :
  nul_free (bytes "node") ∧
  ∃ r32 r64,
    0 <= r32 < 2 ^ 32 ∧ 0 <= r64 < 2 ^ 64 ∧
    (∀ t x, sid_hash32 true (bytes "node" ++ NUL :: t) x = Some r32) ∧
    (∀ t x, sid_hash64 true (bytes "node" ++ NUL :: t) x = Some r64) ∧
    (∀ x, sid_hash32 true (bytes "node") x = None) ∧
    (∀ x, sid_hash64 true (bytes "node") x = None).
Proof.
  assert (nul_free (bytes "node")) as Hs by (unfold nul_free; by_decide).
  split; [exact Hs|]. exact (sid_hash_reads_c_string true _ Hs).
Defined.

(** X2. The loop composes over concatenation: hashing [s] followed by [u]
    from [h] is hashing [u] from the hash of [s], for every width, start
    value and rest [u]. *)
Theorem FNV1aHash_concatenation (sg : bool) (w h p : Z) (s u : buffer) :
  nul_free s →
  FNV1aHash sg w (s ++ u) h p
  = (h' ← FNV1aHash sg w (s ++ [NUL]) h p; FNV1aHash sg w u h' p).
Proof. apply FNV1aHash_app. Qed.

Lemma FNV1aHash_concatenation_witness :
  nul_free (bytes "player_") ∧
  FNV1aHash false 32 (bytes "player_" ++ bytes "42" ++ [NUL]) FNV_32_BASIS FNV_32_PRIME
  = (h' ← FNV1aHash false 32 (bytes "player_" ++ [NUL]) FNV_32_BASIS FNV_32_PRIME;
     FNV1aHash false 32 (bytes "42" ++ [NUL]) h' FNV_32_PRIME).
Proof.
  assert (nul_free (bytes "player_")) as Hs by (unfold nul_free; by_decide).
  split; [exact Hs|].
  exact (FNV1aHash_concatenation false 32 FNV_32_BASIS FNV_32_PRIME _ _ Hs).
Defined.

Lemma FNV1aHash_one_byte (sg : bool) (w h p : Z) (a b : buffer) (c c' : ascii) :
  8 <= w → 0 <= h < 2 ^ w →
  nul_free a → nul_free b → is_nul c = false → is_nul c' = false → c ≠ c' →
  ∃ r r',
    FNV1aHash sg w (a ++ c :: b ++ [NUL]) h p = Some r ∧
    FNV1aHash sg w (a ++ c' :: b ++ [NUL]) h p = Some r' ∧ r ≠ r'.
Proof.
  intros Hw Hh Ha Hb Hc Hc' Hne.
  destruct (FNV1aHash_terminated sg w a [] h p Ha) as (ha & Hha & Hhash_a);
    [lia|exact Hh|].
  rewrite (FNV1aHash_app sg w a (c :: b ++ [NUL])) by exact Ha.
  rewrite (FNV1aHash_app sg w a (c' :: b ++ [NUL])) by exact Ha.
  rewrite (Hhash_a [] p).
  cbn [mbind option_bind FNV1aHash app]. rewrite Hc, Hc'.
  set (k := (Z.lxor ha (char_to_T sg w c) * FNV_32_PRIME) mod 2 ^ w).
  set (k' := (Z.lxor ha (char_to_T sg w c') * FNV_32_PRIME) mod 2 ^ w).
  assert (0 <= k < 2 ^ w) as Hk by (apply fnv_step_range; lia).
  assert (0 <= k' < 2 ^ w) as Hk' by (apply fnv_step_range; lia).
  destruct (FNV1aHash_terminated sg w b [] k p Hb) as (r & _ & Hr); [lia|exact Hk|].
  destruct (FNV1aHash_terminated sg w b [] k' p Hb) as (r' & _ & Hr'); [lia|exact Hk'|].
  exists r, r'. split; [apply Hr|]. split; [apply Hr'|]. intros <-.
  assert (k = k') as Hkk.
  { apply (FNV1aHash_start_inj sg w b [] k k' p r Hb Hw Hk Hk'); [apply Hr|apply Hr']. }
  apply fnv_step_inj in Hkk; [|exact Hw|exact Hha|exact Hha].
  apply lxor_cancel_l, char_to_T_inj in Hkk; [|exact Hw]. by apply Hne.
Qed.

(** X3. Two strings that differ in exactly one byte never get the same
    hash, 32 or 64 bit, whatever the signedness of [char]. *)
Theorem sid_hash_one_byte_difference (sg : bool) (a b : buffer) (c c' : ascii) (x x' : Z) :
  nul_free a → nul_free b → is_nul c = false → is_nul c' = false → c ≠ c' →
  (∃ r r', sid_hash32 sg (a ++ c :: b ++ [NUL]) x = Some r ∧
           sid_hash32 sg (a ++ c' :: b ++ [NUL]) x' = Some r' ∧ r ≠ r') ∧
  (∃ r r', sid_hash64 sg (a ++ c :: b ++ [NUL]) x = Some r ∧
           sid_hash64 sg (a ++ c' :: b ++ [NUL]) x' = Some r' ∧ r ≠ r').
Proof.
  intros Ha Hb Hc Hc' Hne. split.
  - apply (FNV1aHash_one_byte sg 32 FNV_32_BASIS FNV_32_PRIME a b c c');
      [lia|vm_compute; split; congruence|done..].
  - apply (FNV1aHash_one_byte sg 64 fnv_basis fnv_prime a b c c');
      [lia|vm_compute; split; congruence|done..].
Qed.

Lemma sid_hash_one_byte_difference_witness :
  (∃ r r', sid_hash32 true (bytes "pla" ++ "y"%char :: bytes "er" ++ [NUL]) 0 = Some r ∧
           sid_hash32 true (bytes "pla" ++ "n"%char :: bytes "er" ++ [NUL]) 0 = Some r' ∧
           r ≠ r') ∧
  (∃ r r', sid_hash64 true (bytes "pla" ++ "y"%char :: bytes "er" ++ [NUL]) 0 = Some r ∧
           sid_hash64 true (bytes "pla" ++ "n"%char :: bytes "er" ++ [NUL]) 0 = Some r' ∧
           r ≠ r').
Proof.
  apply (sid_hash_one_byte_difference true (bytes "pla") (bytes "er") "y" "n" 0 0).
  - unfold nul_free. by_decide.
  - unfold nul_free. by_decide.
  - reflexivity.
  - reflexivity.
  - discriminate.
Defined.

End fnv_theorems.

(** ** generator.hpp: [to_string] *)

Example to_string_runs :
  to_string 1234 max_size 0 = Some (bytes "1234") ∧
  to_string 1234 max_size 6 = Some (bytes "001234") ∧
  to_string 1234 max_size 2 = Some (bytes "34") ∧
  to_string 0 max_size 0 = Some (bytes "0") ∧
  (List.length <$> to_string 7 max_size 40) = Some 31.
Proof. vm_compute. done. Qed.

Section decimal_facts.
Local Open Scope N_scope.
Implicit Types (a b ds w : buffer) (c : ascii) (s d : N) (k : nat).

Lemma pow10_pos k : 0 < pow10 k.
Proof. unfold pow10. apply N.neq_0_lt_0, N.pow_nonzero. done. Qed.

Lemma pow10_S k : pow10 (S k) = 10 * pow10 k.
Proof. unfold pow10. by rewrite Nat2N.inj_succ, N.pow_succ_r'. Qed.

Lemma pow10_add j k : pow10 (j + k) = pow10 j * pow10 k.
Proof. unfold pow10. by rewrite Nat2N.inj_add, N.pow_add_r. Qed.

Lemma pow10_le_mono j k : (j ≤ k)%nat → pow10 j ≤ pow10 k.
Proof. intros Hjk. unfold pow10. apply N.pow_le_mono_r; [done|lia]. Qed.

Lemma digit_char_code d : d < 10 → N_of_ascii (digit_char d) = 48 + d.
Proof. intros Hd. unfold digit_char. apply N_ascii_embedding. lia. Qed.

Lemma digit_char_digit d : d < 10 → is_digit (digit_char d).
Proof. intros Hd. unfold is_digit. rewrite digit_char_code by done. lia. Qed.

Lemma digit_char_value d : d < 10 → digit_value (digit_char d) = d.
Proof. intros Hd. unfold digit_value. rewrite digit_char_code by done. lia. Qed.

Lemma is_digit_value c : is_digit c → digit_value c < 10.
Proof. unfold is_digit, digit_value. lia. Qed.

Lemma is_digit_inj c c' :
  is_digit c → is_digit c' → digit_value c = digit_value c' → c = c'.
Proof.
  unfold is_digit, digit_value. intros Hc Hc' Heq.
  rewrite <-(ascii_N_embedding c), <-(ascii_N_embedding c'). f_equal. lia.
Qed.

Lemma is_digit_not_nul c : is_digit c → is_nul c = false.
Proof.
  unfold is_digit. intros Hc. unfold is_nul. apply Ascii.eqb_neq.
  intros ->. change (N_of_ascii NUL) with 0 in Hc. lia.
Qed.

Lemma decimal_value_fold acc b :
  fold_left (λ acc c, 10 * acc + digit_value c) b acc
  = acc * pow10 (length b) + decimal_value b.
Proof.
  unfold decimal_value. revert acc.
  induction b as [|c b IH]; intros acc; simpl.
  - change (pow10 0) with 1. lia.
  - rewrite IH, (IH (10 * 0 + digit_value c)), pow10_S. lia.
Qed.

Lemma decimal_value_app a b :
  decimal_value (a ++ b) = decimal_value a * pow10 (length b) + decimal_value b.
Proof. unfold decimal_value at 1. by rewrite fold_left_app, decimal_value_fold. Qed.

Lemma decimal_value_cons c b :
  decimal_value (c :: b) = digit_value c * pow10 (length b) + decimal_value b.
Proof.
  change (c :: b) with ([c] ++ b). rewrite decimal_value_app.
  unfold decimal_value at 1. simpl. lia.
Qed.

Lemma decimal_value_bound b : Forall is_digit b → decimal_value b < pow10 (length b).
Proof.
  induction 1 as [|c b Hc Hb IH]; simpl.
  - by vm_compute.
  - rewrite decimal_value_cons, pow10_S.
    apply is_digit_value in Hc. nia.
Qed.

(** Digit strings of one length denote different numbers. *)
Lemma decimal_value_inj a b :
  Forall is_digit a → Forall is_digit b → length a = length b →
  decimal_value a = decimal_value b → a = b.
Proof.
  intros Ha. revert b. induction Ha as [|c a Hc Ha IH]; intros b Hb Hlen Hval.
  - by destruct b.
  - destruct b as [|c' b]; [done|]. apply Forall_cons in Hb as [Hc' Hb].
    simpl in Hlen. injection Hlen as Hlen.
    rewrite !decimal_value_cons, <-Hlen in Hval.
    pose proof (decimal_value_bound a Ha) as Hba.
    pose proof (decimal_value_bound b Hb) as Hbb. rewrite <-Hlen in Hbb.
    assert (digit_value c = digit_value c') as Hd by nia.
    rewrite Hd in Hval.
    f_equal; [by apply is_digit_inj|]. apply IH; [done..|lia].
Qed.

Lemma decimal_value_replicate_zero k : decimal_value (replicate k (digit_char 0)) = 0.
Proof.
  induction k as [|k IH]; simpl; [done|].
  rewrite decimal_value_cons, IH, digit_char_value by done. lia.
Qed.

Lemma replicate_snoc_app {A} k (x : A) (l : list A) :
  replicate k x ++ x :: l = replicate (S k) x ++ l.
Proof. induction k as [|k IH]; simpl; [done|]. by rewrite IH. Qed.

(** The [do] loop writes the decimal digits of [s], if they fit. *)
Lemma write_digits_spec room s i w :
  (1 ≤ room)%nat → s < pow10 room →
  ∃ ds, write_digits room s i w
        = Some ((room - length ds)%nat, (i + length ds)%nat, ds ++ w) ∧
        Forall is_digit ds ∧ decimal_value ds = s ∧ canonical ds ∧
        (1 ≤ length ds ≤ room)%nat ∧ (s ≠ 0 → pow10 (length ds - 1) ≤ s).
Proof.
  revert s i w. induction room as [|room IH]; intros s i w Hroom Hs; [lia|].
  simpl. rewrite pow10_S in Hs.
  assert (s mod 10 < 10) as Hmod by (apply N.mod_lt; done).
  pose proof (N.div_mod s 10 ltac:(done)) as Hdm.
  set (q := s / 10) in *. set (r := s mod 10) in *.
  destruct (N.eqb_spec q 0) as [Hz|Hnz].
  - exists [digit_char r]. simpl.
    rewrite Nat.sub_0_r, Nat.add_1_r. split; [done|].
    split; [by repeat constructor; apply digit_char_digit|].
    split; [unfold decimal_value; simpl; rewrite digit_char_value by done; lia|].
    split.
    + destruct (N.eq_dec r 0) as [->|Hne]; [by left|right].
      eexists _, []. split; [done|]. by rewrite digit_char_value.
    + split; [lia|]. intros Hs0. change (pow10 0) with 1. lia.
  - destruct (IH q (S i) (digit_char r :: w))
      as (ds & -> & Hds & Hval & Hcan & Hlen & Hmin).
    { destruct room; [|lia]. change (pow10 0) with 1 in Hs. lia. }
    { clearbody q r. generalize dependent (pow10 room). intros P. lia. }
    exists (ds ++ [digit_char r]).
    rewrite length_app. simpl. rewrite <-(assoc_L (++)). simpl.
    split; [do 3 f_equal; lia|].
    split; [apply Forall_app; split; [done|];
            by repeat constructor; apply digit_char_digit|].
    split.
    { rewrite decimal_value_app, Hval. simpl.
      change (pow10 1) with 10. unfold decimal_value. simpl.
      rewrite digit_char_value by done. lia. }
    split.
    { right. destruct Hcan as [->|(c & rest & -> & Hc)].
      - unfold decimal_value in Hval. simpl in Hval.
        rewrite digit_char_value in Hval by done. lia.
      - by exists c, (rest ++ [digit_char r]). }
    split; [lia|]. intros _.
    replace (length ds + 1 - 1)%nat with (S (length ds - 1)) by lia.
    rewrite pow10_S. specialize (Hmin Hnz).
    generalize dependent (pow10 (length ds - 1)). intros P HP. lia.
Qed.

(** The padding loop writes zeros until the length is reached or one byte
    of the array is left. *)
Lemma pad_zeros_spec room i len w :
  (1 ≤ room)%nat →
  pad_zeros room i len w
  = Some ((room - Nat.min (len - i) (room - 1))%nat,
          (i + Nat.min (len - i) (room - 1))%nat,
          replicate (Nat.min (len - i) (room - 1)) (digit_char 0) ++ w).
Proof.
  revert i w. induction room as [|room IH]; intros i w Hroom; [lia|].
  destruct room as [|room].
  - simpl. rewrite Nat.min_0_r. simpl. do 3 f_equal; lia.
  - change (pad_zeros (S (S room)) i len w)
      with (if (i <? len)%nat
            then pad_zeros (S room) (S i) len (digit_char 0 :: w)
            else Some (S (S room), i, w)).
    destruct (Nat.ltb_spec i len) as [Hlt|Hge].
    + rewrite IH by lia. rewrite replicate_snoc_app.
      replace (Nat.min (len - i) (S (S room) - 1))
        with (S (Nat.min (len - S i) (S room - 1))) by lia.
      do 3 f_equal; lia.
    + replace (len - i)%nat with 0%nat by lia. simpl. do 3 f_equal; lia.
Qed.

Lemma state_below_pow10_20 s : s < state_modulus → s < pow10 20.
Proof. intros Hs. eapply N.lt_trans; [exact Hs|]. by vm_compute. Qed.

(** [to_string] on a 64 bit value: the digits [ds] of the value, then the
    padding or the cut. *)
Lemma to_string_cases s len :
  s < state_modulus →
  ∃ ds, Forall is_digit ds ∧ decimal_value ds = s ∧ canonical ds ∧
        (1 ≤ length ds ≤ 20)%nat ∧
        to_string s max_size len
        = Some (if (length ds <? len)%nat
                then replicate (Nat.min len 31 - length ds) (digit_char 0) ++ ds
                else if negb (len =? 0)%nat && (len <? length ds)%nat
                     then drop (length ds - len) ds
                     else ds).
Proof.
  intros Hs%state_below_pow10_20.
  destruct (write_digits_spec max_size s 0 [])
    as (ds & Hrun & Hds & Hval & Hcan & Hlen & Hmin).
  { unfold max_size. lia. }
  { eapply N.lt_le_trans; [exact Hs|]. apply (pow10_le_mono 20 32). lia. }
  assert (length ds ≤ 20)%nat as Hlen20.
  { destruct (N.eq_dec s 0) as [->|Hs0].
    - destruct Hcan as [->|(c & rest & -> & Hc)]; [simpl; lia|].
      rewrite decimal_value_cons in Hval. apply Forall_cons in Hds as [Hc' _].
      pose proof (pow10_pos (length rest)). nia.
    - specialize (Hmin Hs0).
      destruct (Nat.le_gt_cases (length ds) 20) as [|Hgt]; [done|].
      pose proof (pow10_le_mono 20 (length ds - 1) ltac:(lia)). lia. }
  exists ds. do 3 (split; [done|]). split; [lia|].
  unfold to_string. rewrite Hrun. cbn [mbind option_bind]. rewrite app_nil_r.
  rewrite !Nat.add_0_l.
  destruct (Nat.ltb_spec (length ds) len) as [Hlt|Hge];
    [|by destruct (negb (len =? 0)%nat && (len <? length ds)%nat)].
  rewrite pad_zeros_spec by (unfold max_size; lia). cbn [mbind option_bind snd].
  do 3 f_equal. unfold max_size. clear -Hlen20 Hlt. lia.
Qed.

End decimal_facts.

Section to_string_theorems.
Local Open Scope N_scope.

Lemma digits_nul_free (b : buffer) : Forall is_digit b → nul_free b.
Proof.
  intros Hb. unfold nul_free. eapply Forall_impl; [exact Hb|].
  intros c. apply is_digit_not_nul.
Qed.

(** With a length, the result has that many digits (31 at most) and
    denotes the value modulo the matching power of ten. *)
Lemma to_string_width (s : N) (len : nat) :
  s < state_modulus → (1 ≤ len)%nat →
  ∃ out, to_string s max_size len = Some out ∧
         length out = Nat.min len 31 ∧ Forall is_digit out ∧
         decimal_value out = s mod pow10 (Nat.min len 31).
Proof.
  intros Hs Hlen.
  destruct (to_string_cases s len Hs) as (ds & Hds & Hval & _ & Hk & ->).
  pose proof (decimal_value_bound ds Hds) as Hbound. rewrite Hval in Hbound.
  eexists. split; [done|].
  destruct (Nat.ltb_spec (length ds) len) as [Hlt|Hge].
  - split; [rewrite length_app, length_replicate; lia|].
    split; [apply Forall_app; split; [|done];
            by apply Forall_replicate, digit_char_digit|].
    rewrite decimal_value_app, decimal_value_replicate_zero, Hval.
    rewrite N.mod_small; [lia|].
    eapply N.lt_le_trans; [exact Hbound|]. apply pow10_le_mono. lia.
  - replace (negb (len =? 0)%nat) with true
      by (symmetry; apply negb_true_iff, Nat.eqb_neq; lia).
    cbn [andb]. replace (Nat.min len 31) with len by lia.
    destruct (Nat.ltb_spec len (length ds)) as [Hcut|Hfit].
    + split; [rewrite length_drop; lia|].
      split; [by apply Forall_drop|].
      pose proof (take_drop (length ds - len) ds) as Hsplit.
      assert (length (drop (length ds - len) ds) = len) as Hdl
        by (rewrite length_drop; lia).
      assert (s = decimal_value (take (length ds - len) ds) * pow10 len +
                  decimal_value (drop (length ds - len) ds)) as Hs2.
      { rewrite <-Hval. rewrite <-Hsplit at 1.
        by rewrite decimal_value_app, Hdl. }
      pose proof (decimal_value_bound (drop (length ds - len) ds)
                    (Forall_drop _ _ _ Hds)) as Hdb.
      rewrite Hdl in Hdb.
      apply (N.mod_unique _ _ (decimal_value (take (length ds - len) ds)));
        [exact Hdb|].
      rewrite Hs2 at 1. apply N.add_cancel_r, N.mul_comm.
    + assert (length ds = len) as <- by lia.
      split; [done|]. split; [done|]. rewrite Hval. by rewrite N.mod_small.
Qed.

(** X4. Without a length, [to_string] writes the decimal digits of the
    counter: only digits, no leading zero but for 0 itself, and reading
    them back gives the counter. *)
Theorem to_string_round_trip (s : N) :
  s < state_modulus →
  ∃ out, to_string s max_size 0 = Some out ∧
         Forall is_digit out ∧ canonical out ∧ decimal_value out = s.
Proof.
  intros Hs.
  destruct (to_string_cases s 0 Hs) as (ds & Hds & Hval & Hcan & Hk & ->).
  exists ds. split; [|done].
  replace (length ds <? 0)%nat with false by (symmetry; apply Nat.ltb_ge; lia).
  done.
Qed.

Lemma to_string_round_trip_witness :
  18446744073709551615 < state_modulus ∧
  ∃ out, to_string 18446744073709551615 max_size 0 = Some out ∧
         Forall is_digit out ∧ canonical out ∧
         decimal_value out = 18446744073709551615.
Proof.
  assert (18446744073709551615 < state_modulus) as Hs by (by vm_compute).
  split; [exact Hs|]. exact (to_string_round_trip _ Hs).
Defined.

(** X5. With a length, [to_string] returns exactly that many digits, 31 at
    most whatever the length asked for: zeros in front of a short number,
    the last digits of a long one; the value read back is the counter
    modulo that power of ten, and no byte is NUL. *)
Theorem to_string_fixed_width (s : N) (len : nat) :
  s < state_modulus → (1 ≤ len)%nat →
  ∃ out, to_string s max_size len = Some out ∧
         length out = Nat.min len 31 ∧ Forall is_digit out ∧ nul_free out ∧
         decimal_value out = s mod pow10 (Nat.min len 31).
Proof.
  intros Hs Hlen.
  destruct (to_string_width s len Hs Hlen) as (out & ? & ? & ? & ?).
  exists out. do 3 (split; [done|]). split; [by apply digits_nul_free|done].
Qed.

Lemma to_string_fixed_width_witness :
  (∃ out, to_string 1234567 max_size 3 = Some out ∧
          length out = Nat.min 3 31 ∧ Forall is_digit out ∧ nul_free out ∧
          decimal_value out = 1234567 mod pow10 (Nat.min 3 31)) ∧
  (∃ out, to_string 42 max_size 40 = Some out ∧
          length out = Nat.min 40 31 ∧ Forall is_digit out ∧ nul_free out ∧
          decimal_value out = 42 mod pow10 (Nat.min 40 31)).
Proof.
  split.
  - apply (to_string_fixed_width 1234567 3); [by vm_compute|lia].
  - apply (to_string_fixed_width 42 40); [by vm_compute|lia].
Defined.

(** X6. Two counter values give the same candidate exactly when they agree
    modulo [10 ^ min(length, 31)]; without a length, only when they are
    equal. So a generator with length [L] runs through [10 ^ L] candidates
    and then repeats them. *)
Theorem to_string_same_candidate (s s' : N) (len : nat) :
  s < state_modulus → s' < state_modulus →
  (to_string s max_size 0 = to_string s' max_size 0 ↔ s = s') ∧
  ((1 ≤ len)%nat →
   (to_string s max_size len = to_string s' max_size len ↔
    s mod pow10 (Nat.min len 31) = s' mod pow10 (Nat.min len 31))).
Proof.
  intros Hs Hs'. split.
  - split; [|by intros ->].
    destruct (to_string_cases s 0 Hs) as (ds & _ & Hval & _ & _ & ->).
    destruct (to_string_cases s' 0 Hs') as (ds' & _ & Hval' & _ & _ & ->).
    replace (length ds <? 0)%nat with false by (symmetry; apply Nat.ltb_ge; lia).
    replace (length ds' <? 0)%nat with false by (symmetry; apply Nat.ltb_ge; lia).
    simpl. intros [= ->]. congruence.
  - intros Hlen.
    destruct (to_string_width s len Hs Hlen) as (out & -> & Hl & Hd & Hv).
    destruct (to_string_width s' len Hs' Hlen) as (out' & -> & Hl' & Hd' & Hv').
    split.
    + intros [= ->]. congruence.
    + intros Heq. f_equal. apply decimal_value_inj; [done..|congruence|congruence].
Qed.

Lemma to_string_same_candidate_witness :
  (to_string 7 max_size 0 = to_string 1007 max_size 0 ↔ 7 = 1007) ∧
  (to_string 7 max_size 3 = to_string 1007 max_size 3 ↔
   7 mod pow10 (Nat.min 3 31) = 1007 mod pow10 (Nat.min 3 31)).
Proof.
  destruct (to_string_same_candidate 7 1007 3) as [H0 H3];
    [by vm_compute|by vm_compute|].
  split; [exact H0|]. apply H3. lia.
Defined.

Lemma to_string_unpadded_inj (s s' : N) :
  s < state_modulus → s' < state_modulus →
  to_string s max_size 0 = to_string s' max_size 0 → s = s'.
Proof.
  intros Hs Hs'.
  destruct (to_string_cases s 0 Hs) as (ds & _ & Hval & _ & _ & ->).
  destruct (to_string_cases s' 0 Hs') as (ds' & _ & Hval' & _ & _ & ->).
  replace (length ds <? 0)%nat with false by (symmetry; apply Nat.ltb_ge; lia).
  replace (length ds' <? 0)%nat with false by (symmetry; apply Nat.ltb_ge; lia).
  simpl. intros [= ->]. congruence.
Qed.

(** The generator after [n] candidates. *)
Lemma next_candidate_iter (n : N) (g : counter_generator) :
  counter_ g < state_modulus →
  N.iter n (λ g, (next_candidate g).2) g = discard n g.
Proof.
  intros Hg. induction n as [|n IH] using N.peano_ind.
  - simpl. unfold discard. rewrite N.add_0_r, N.mod_small by done. by destruct g.
  - rewrite N.iter_succ, IH. unfold next_candidate, discard. simpl. f_equal.
    rewrite N.Div0.add_mod_idemp_l. f_equal. lia.
Qed.

Lemma mod_shift_differs (a d : N) :
  0 < d < state_modulus → (a + d) mod state_modulus ≠ a mod state_modulus.
Proof.
  intros Hd Heq.
  pose proof (N.div_mod' a state_modulus) as Ha.
  pose proof (N.div_mod' (a + d) state_modulus) as Had.
  rewrite Heq in Had.
  pose proof (N.mod_upper_bound a state_modulus) as Hr.
  set (q := a / state_modulus) in *. set (q' := (a + d) / state_modulus) in *.
  set (r := a mod state_modulus) in *. clearbody q q' r.
  change state_modulus with 18446744073709551616 in *. lia.
Qed.

(** X7. [discard(n)] leaves the generator in the state [n] candidates
    would: the counter advances by [n] modulo [2^64]. *)
Theorem discard_skips_candidates (n : N) (g : counter_generator) :
  counter_ g < state_modulus →
  N.iter n (λ g, (next_candidate g).2) g = discard n g.
Proof. apply next_candidate_iter. Qed.

Lemma discard_skips_candidates_witness :
  counter_ (CounterGenerator 18446744073709551610 4) < state_modulus ∧
  N.iter 10 (λ g, (next_candidate g).2) (CounterGenerator 18446744073709551610 4)
  = discard 10 (CounterGenerator 18446744073709551610 4).
Proof.
  assert (counter_ (CounterGenerator 18446744073709551610 4) < state_modulus)
    as Hg by (by vm_compute).
  split; [exact Hg|]. exact (discard_skips_candidates 10 _ Hg).
Defined.

(** X18. A counter generator without a length never repeats itself within
    [2^64] candidates: the candidates produced after [i] and after [j]
    earlier ones differ whenever [0 < j - i < 2^64]. *)
Theorem counter_candidates_never_repeat (g : counter_generator) (i j : N) :
  counter_ g < state_modulus → length_ g = 0%nat →
  i < j → j - i < state_modulus →
  (next_candidate (N.iter i (λ g, (next_candidate g).2) g)).1 ≠
  (next_candidate (N.iter j (λ g, (next_candidate g).2) g)).1.
Proof.
  intros Hg Hlen Hij Hspan. rewrite !next_candidate_iter by done.
  unfold next_candidate, discard. cbn [fst counter_ length_]. rewrite Hlen.
  intros Heq. apply to_string_unpadded_inj in Heq;
    [|by apply N.mod_upper_bound..].
  apply (mod_shift_differs (counter_ g + i) (j - i)); [lia|].
  rewrite Heq. f_equal. lia.
Qed.

Lemma counter_candidates_never_repeat_witness :
  (next_candidate (N.iter 5 (λ g, (next_candidate g).2)
                     (CounterGenerator 18446744073709551610 0))).1 ≠
  (next_candidate (N.iter 7 (λ g, (next_candidate g).2)
                     (CounterGenerator 18446744073709551610 0))).1.
Proof.
  apply (counter_candidates_never_repeat
           (CounterGenerator 18446744073709551610 0) 5 7);
    [by vm_compute|reflexivity|lia|by vm_compute].
Defined.

End to_string_theorems.

(** ** generator.hpp: [try_generate] under any handler *)

(** X8. Under any handler: when the first [k] attempts meet stored strings,
    the handler answers retry to each of them (it is asked with the attempt
    numbers 1, 2, ...), and attempt [k + 1] is new, [try_generate] returns
    the result of attempt [k + 1], after [k + 1] runs of the generator. *)
Theorem try_generate_first_new
    (STRID_T G : Type) (hash_code : STRID_T → STORAGE_T)
    (string_of : STRID_T → buffer) (attempt : G → insert_status * STRID_T * G)
    (handler : generation_error_handler) (name : string) (k fuel : nat) (g : G) :
  (∀ i, i < k →
     let gi := after_attempts STRID_T G attempt i g in
     (attempt gi).1.1 ≠ new_string ∧
     handler (S i) name (hash_code (attempt gi).1.2) (string_of (attempt gi).1.2)
     = inr true) →
  (attempt (after_attempts STRID_T G attempt k g)).1.1 = new_string →
  k ≤ fuel →
  try_generate STRID_T G hash_code string_of attempt handler fuel name g
  = returned (attempt (after_attempts STRID_T G attempt k g)).1.2
      (after_attempts STRID_T G attempt (S k) g).
Proof.
  intros Hfail Hnew Hfuel. unfold try_generate.
  rewrite <-(loop_first_new hash_code string_of attempt handler k fuel name 1 g);
    [by destruct (attempt g) as [[status result] g']| |done|done].
  intros i Hi. exact (Hfail i Hi).
Qed.

Lemma try_generate_first_new_witness :
  try_generate nat nat N.of_nat (λ _, []) third_time_lucky always_retry 2
    "counter" 0
  = returned 2 3.
Proof.
  apply (try_generate_first_new nat nat N.of_nat (λ _, []) third_time_lucky
           always_retry "counter" 2 2 0); [|reflexivity|lia].
  intros i Hi. destruct i as [|[|i]]; [by vm_compute|by vm_compute|lia].
Defined.

(** X9. [try_generate] has no bound of its own on the number of attempts:
    with a handler that always answers retry and a generator whose
    candidates are all stored already, no number of attempts ends the
    loop. *)
Theorem try_generate_unbounded
    (STRID_T G : Type) (hash_code : STRID_T → STORAGE_T)
    (string_of : STRID_T → buffer) (attempt : G → insert_status * STRID_T * G)
    (handler : generation_error_handler) (name : string) :
  (∀ g, (attempt g).1.1 ≠ new_string) →
  (∀ no h s, handler no name h s = inr true) →
  ∀ fuel g,
    try_generate STRID_T G hash_code string_of attempt handler fuel name g
    = out_of_fuel.
Proof.
  intros Hfail Hretry fuel g. unfold try_generate.
  pose proof (Hfail g) as Hfirst.
  destruct (attempt g) as [[status result] g'].
  by apply loop_never_ends.
Qed.

Lemma try_generate_unbounded_witness :
  (∀ g, (stuck_generator g).1.1 ≠ new_string) ∧
  (∀ no h s, always_retry no "counter" h s = inr true) ∧
  try_generate nat nat N.of_nat (λ _, []) stuck_generator always_retry 1000
    "counter" 0
  = out_of_fuel.
Proof.
  assert (∀ g, (stuck_generator g).1.1 ≠ new_string) as Hstuck by done.
  assert (∀ no h s, always_retry no "counter" h s = inr true) as Hretry by done.
  split; [exact Hstuck|]. split; [exact Hretry|].
  exact (try_generate_unbounded nat nat N.of_nat (λ _, []) stuck_generator
           always_retry "counter" Hstuck Hretry 1000 0).
Defined.

(** ** generator.hpp, generator.cpp: the candidates of the random generator *)

Section random_facts.

Lemma table_length : length table = 63.
Proof. reflexivity. Qed.

Lemma table_nodup : NoDup table.
Proof. by_decide. Qed.

Lemma table_alnum : Forall (λ c, is_alnumb c = true) (take 62 table).
Proof. by_decide. Qed.

Lemma table_alpha : Forall (λ c, is_alphab c = true) (take 52 table).
Proof. by_decide. Qed.

Lemma is_alnumb_not_nul c : is_alnumb c = true → is_nul c = false.
Proof.
  intros Hc. unfold is_nul. apply Ascii.eqb_neq. intros ->. by vm_compute in Hc.
Qed.

Lemma is_alphab_alnumb c : is_alphab c = true → is_alnumb c = true.
Proof.
  unfold is_alphab, is_alnumb. cbv zeta.
  intros [H|H]%orb_true_iff; rewrite H; [|apply orb_true_r].
  by rewrite orb_true_r.
Qed.

(** Draws within the first [m] places of the table give a candidate of as
    many characters, each from those places. *)
Lemma random_candidate_within (t : character_table) (m : nat) (draws : list nat) :
  m ≤ length (characters t) → Forall (λ k, k < m) draws →
  ∃ out, random_candidate t draws = Some out ∧ length out = length draws ∧
         Forall (λ c, c ∈ take m (characters t)) out.
Proof.
  intros Hm Hdraws. induction Hdraws as [|k draws Hk _ (out & Hout & Hlen & Hall)].
  - exists []. by repeat split.
  - destruct (lookup_lt_is_Some_2 (characters t) k) as [c Hc]; [lia|].
    exists (c :: out). cbn [random_candidate]. unfold buffer in *.
    rewrite Hc, Hout.
    split; [done|]. split; [by rewrite !length_cons, Hlen|].
    constructor; [|done]. apply list_elem_of_lookup. exists k.
    by rewrite lookup_take_lt.
Qed.

Lemma random_candidate_inj (t : character_table) (draws draws' : list nat) out :
  NoDup (characters t) →
  random_candidate t draws = Some out → random_candidate t draws' = Some out →
  draws = draws'.
Proof.
  intros Hnd. revert draws' out.
  induction draws as [|k draws IH]; intros draws' out; cbn [random_candidate].
  - intros [= <-]. destruct draws' as [|k' draws']; cbn [random_candidate]; [done|].
    destruct (characters t !! k'); simpl; [|done].
    by destruct (random_candidate t draws').
  - destruct (characters t !! k) as [c|] eqn:Hc; simpl; [|done].
    destruct (random_candidate t draws) as [rest|] eqn:Hrest; simpl; [|done].
    intros [= <-]. destruct draws' as [|k' draws']; cbn [random_candidate]; [done|].
    destruct (characters t !! k') as [c'|] eqn:Hc'; simpl; [|done].
    destruct (random_candidate t draws') as [rest'|] eqn:Hrest'; simpl; [|done].
    intros [= -> ->]. f_equal.
    + by eapply (NoDup_lookup (characters t)).
    + by eapply IH.
Qed.

End random_facts.

(** X10. The distribution of [random_generator] draws indices from 0 to
    [no_characters - 1]. With the table [alnum] every such sequence of
    draws gives a candidate of as many characters, all of them letters or
    digits; with [alpha], all of them letters. No candidate holds a NUL. *)
Theorem random_candidate_characters (draws : list nat) :
  (Forall (λ k, k ≤ no_characters alnum - 1) draws →
   ∃ out, random_candidate alnum draws = Some out ∧
          length out = length draws ∧
          Forall (λ c, is_alnumb c = true) out ∧ nul_free out) ∧
  (Forall (λ k, k ≤ no_characters alpha - 1) draws →
   ∃ out, random_candidate alpha draws = Some out ∧
          length out = length draws ∧
          Forall (λ c, is_alphab c = true) out ∧ nul_free out).
Proof.
  split; intros Hdraws.
  - destruct (random_candidate_within alnum 62 draws) as (out & Hout & Hlen & Hall).
    { change (length (characters alnum)) with 63. lia. }
    { eapply Forall_impl; [exact Hdraws|]. intros k Hk.
      change (k ≤ 61) in Hk. change (k < 62). lia. }
    exists out. split; [done|]. split; [done|].
    assert (Forall (λ c, is_alnumb c = true) out) as Hal.
    { eapply Forall_impl; [exact Hall|]. intros c Hc.
      by apply (proj1 (Forall_forall _ _) table_alnum). }
    split; [done|]. eapply Forall_impl; [exact Hal|].
    intros c. apply is_alnumb_not_nul.
  - destruct (random_candidate_within alpha 52 draws) as (out & Hout & Hlen & Hall).
    { change (length (characters alpha)) with 63. lia. }
    { eapply Forall_impl; [exact Hdraws|]. intros k Hk.
      change (k ≤ 51) in Hk. change (k < 52). lia. }
    exists out. split; [done|]. split; [done|].
    assert (Forall (λ c, is_alphab c = true) out) as Hal.
    { eapply Forall_impl; [exact Hall|]. intros c Hc.
      by apply (proj1 (Forall_forall _ _) table_alpha). }
    split; [done|]. eapply Forall_impl; [exact Hal|].
    intros c Hc. by apply is_alnumb_not_nul, is_alphab_alnumb.
Qed.

Lemma random_candidate_characters_witness :
  (∃ out, random_candidate alnum [0; 61; 26; 51; 52] = Some out ∧
          length out = 5 ∧
          Forall (λ c, is_alnumb c = true) out ∧ nul_free out) ∧
  (∃ out, random_candidate alpha [0; 51; 26; 25] = Some out ∧
          length out = 4 ∧
          Forall (λ c, is_alphab c = true) out ∧ nul_free out).
Proof.
  split.
  - apply (proj1 (random_candidate_characters [0; 61; 26; 51; 52])). by_decide.
  - apply (proj2 (random_candidate_characters [0; 51; 26; 25])). by_decide.
Defined.

(** X11. No character occurs twice in the table of generator.cpp, so
    different sequences of draws give different candidates: a generator of
    length [n] over [alnum] can produce [62 ^ n] strings, over [alpha]
    [52 ^ n]. *)
Theorem random_candidate_distinct (t : character_table) (draws draws' : list nat)
    (out out' : buffer) :
  t = alnum ∨ t = alpha →
  random_candidate t draws = Some out → random_candidate t draws' = Some out' →
  draws ≠ draws' → out ≠ out'.
Proof.
  intros Ht Hout Hout' Hne <-. apply Hne.
  apply (random_candidate_inj t draws draws' out); [|done..].
  destruct Ht as [-> | ->]; exact table_nodup.
Qed.

Lemma random_candidate_distinct_witness :
  random_candidate alnum [50; 51] = Some (bytes "zy") ∧
  random_candidate alnum [51; 50] = Some (bytes "yz") ∧
  bytes "zy" ≠ bytes "yz".
Proof.
  assert (random_candidate alnum [50; 51] = Some (bytes "zy")) as H1
    by reflexivity.
  assert (random_candidate alnum [51; 50] = Some (bytes "yz")) as H2
    by reflexivity.
  split; [exact H1|]. split; [exact H2|].
  apply (random_candidate_distinct alnum [50; 51] [51; 50] _ _
           (or_introl eq_refl) H1 H2).
  discriminate.
Defined.

(** ** database.hpp: what a run of calls leaves in the table *)

Section run_more_facts.
Implicit Types (db : map_database) (c : call) (cs : list call).

(** A completed call was an [insert] under the call's hash. *)
Lemma run_call_as_insert db c st db' :
  wf db → run_call db c = Some (st, db') →
  ∃ str n, insert db (call_hash c) str n = Some (st, db').
Proof.
  intros Hwf Hrun. destruct c as [h str n|h p str n]; simpl in *; [eauto|].
  destruct (insert_prefix_cases db h p str n _ Hwf Hrun) as (X & _ & _ & ?).
  eauto.
Qed.

(** The entries after a completed call: the same, or one more under the
    call's hash, which was not stored before. *)
Lemma run_call_entries db c st db' :
  wf db → run_call db c = Some (st, db') →
  call_hash c ∈ hashes (entries db) ∧ entries db' ≡ₚ entries db ∨
  ¬ call_hash c ∈ hashes (entries db) ∧
  ∃ x, node_hash x = call_hash c ∧ entries db' ≡ₚ x :: entries db.
Proof.
  intros Hwf Hrun.
  destruct (run_call_as_insert db c st db' Hwf Hrun) as (str & n & Hins).
  destruct (insert_cases _ _ _ _ _ _ Hwf Hins)
    as (db1 & _ & _ & Hperm & _ &
        [(_ & -> & x & _ & Hx & <- & _)|(_ & Habs & _ & _ & d & _ & Hperm')]).
  - left. split; [|done]. apply list_elem_of_fmap. eauto.
  - right. split; [done|]. by eexists (Node n (call_hash c) (d ++ [NUL])).
Qed.

Lemma run_calls_keep db cs db' h s :
  wf db → Forall valid_call cs → run_calls db cs = Some db' →
  lookup db h = Some s → lookup db' h = Some s.
Proof.
  intros Hwf Hvalid. revert db Hwf.
  induction Hvalid as [|c cs Hc Hcs IH]; intros db Hwf; simpl.
  - by intros [= <-].
  - destruct (run_call db c) as [[st db1]|] eqn:Hrun; simpl; [|done].
    intros Hrest Hlook.
    pose proof (run_call_wf db c st db1 Hwf Hc Hrun) as Hwf1.
    apply (IH db1 Hwf1 Hrest).
    apply lookup_Some in Hlook as (x & Hx & Hh & Hs); [|done].
    apply lookup_Some; [done|]. exists x. split; [|done].
    destruct (run_call_entries db c st db1 Hwf Hrun)
      as [[_ Hperm]|(_ & y & _ & Hperm)]; rewrite Hperm; [done|].
    by apply elem_of_cons; right.
Qed.

Lemma run_calls_hashes db cs db' :
  wf db → Forall valid_call cs → run_calls db cs = Some db' →
  ∀ h, h ∈ hashes (entries db') ↔
       h ∈ hashes (entries db) ∨ h ∈ call_hash <$> cs.
Proof.
  intros Hwf Hvalid. revert db Hwf.
  induction Hvalid as [|c cs Hc Hcs IH]; intros db Hwf; simpl.
  - intros [= <-] h. rewrite elem_of_nil. tauto.
  - destruct (run_call db c) as [[st db1]|] eqn:Hrun; simpl; [|done].
    intros Hrest h.
    pose proof (run_call_wf db c st db1 Hwf Hc Hrun) as Hwf1.
    rewrite (IH db1 Hwf1 Hrest h), elem_of_cons.
    destruct (run_call_entries db c st db1 Hwf Hrun)
      as [[Hin Hperm]|(_ & y & Hy & Hperm)]; unfold hashes in *; rewrite Hperm.
    + split; [tauto|]. intros [?|[->|?]]; tauto.
    + rewrite fmap_cons, elem_of_cons, Hy. tauto.
Qed.

End run_more_facts.

(** X12. A string, once stored, stays: in every reachable state, whatever
    calls of [insert] and [insert_prefix] complete afterwards, with whatever
    status and however often the table grows, a hash that [lookup] found
    before is found after, with the same string. *)
Theorem stored_strings_stay db cs db' h s :
  reachable db → Forall valid_call cs → run_calls db cs = Some db' →
  lookup db h = Some s → lookup db' h = Some s.
Proof. intros Hwf%reachable_wf. by apply run_calls_keep. Qed.

Lemma stored_strings_stay_witness :
  ∃ db db',
    run_calls (new_map_database 1 1) prefix_table_calls = Some db ∧
    run_calls db table_Y_calls = Some db' ∧
    lookup db 1 = Some (c_str (bytes "X")) ∧
    lookup db' 1 = Some (c_str (bytes "X")).
Proof.
  eexists. eexists. split; [vm_compute; reflexivity|].
  match goal with |- run_calls ?d ?cs = Some ?d' ∧ _ =>
    assert (run_calls d cs = Some d') as Hrun by (vm_compute; reflexivity)
  end.
  split; [exact Hrun|].
  match goal with |- lookup ?d 1 = _ ∧ _ =>
    assert (lookup d 1 = Some (c_str (bytes "X"))) as Hlook
      by (vm_compute; reflexivity)
  end.
  split; [exact Hlook|].
  refine (stored_strings_stay _ table_Y_calls _ 1 _ _ _ Hrun Hlook).
  - exists 1, 1%double, prefix_table_calls.
    split; [lia|]. split; [by_decide|vm_compute; reflexivity].
  - by_decide.
Defined.

(** X13. After a run of completed calls on a new table, [lookup] finds
    exactly the hashes the calls carried, and the item count is the number
    of different hashes among them. *)
Theorem lookup_finds_inserted_hashes size f cs db :
  0 < size → Forall valid_call cs →
  run_calls (new_map_database size f) cs = Some db →
  (∀ h, is_Some (lookup db h) ↔ h ∈ call_hash <$> cs) ∧
  no_items_ db = length (remove_dups (call_hash <$> cs)).
Proof.
  intros Hsize Hvalid Hrun.
  pose proof (wf_new size f Hsize) as Hwf0.
  pose proof (run_calls_wf _ _ _ Hwf0 Hvalid Hrun) as Hwf.
  pose proof (run_calls_hashes _ _ _ Hwf0 Hvalid Hrun) as Hin.
  assert (∀ h, h ∈ hashes (entries db) ↔ h ∈ call_hash <$> cs) as Hin'.
  { intros h. rewrite Hin, entries_new. unfold hashes. simpl.
    rewrite elem_of_nil. tauto. }
  split.
  - intros h. rewrite <-Hin'. destruct (lookup db h) as [buf|] eqn:E.
    + split; [|by eauto]. intros _.
      apply lookup_Some in E as (x & Hx & <- & _); [|done].
      apply list_elem_of_fmap. eauto.
    + split; [by intros [? [=]]|]. intros Hh.
      by apply lookup_None in E.
  - destruct Hwf as [Hok Hitems _]. rewrite Hitems.
    rewrite <-(length_fmap node_hash). apply Permutation_length.
    apply NoDup_Permutation.
    + by eapply array_nodup.
    + apply NoDup_remove_dups.
    + intros h. rewrite elem_of_remove_dups. apply Hin'.
Qed.

Lemma lookup_finds_inserted_hashes_witness :
  ∃ db,
    run_calls (new_map_database 1 1)
      (table_X_calls ++ [call_insert 1 (bytes "Z") 1]) = Some db ∧
    (∀ h, is_Some (lookup db h) ↔ h ∈ [1; 2; 1]%N) ∧
    no_items_ db = 2.
Proof.
  eexists. split; [vm_compute; reflexivity|].
  apply (lookup_finds_inserted_hashes 1 1
           (table_X_calls ++ [call_insert 1 (bytes "Z") 1]));
    [lia|by_decide|vm_compute; reflexivity].
Defined.

(** X14. The bucket array only grows, and only by doubling: after a run of
    completed calls on a table built with [size] buckets the bucket count
    is [size * 2 ^ k], with at most one doubling for each call, and the
    array has that many buckets. *)
Theorem bucket_count_doubles size f cs db :
  0 < size → Forall valid_call cs →
  run_calls (new_map_database size f) cs = Some db →
  ∃ k, k ≤ length cs ∧ no_buckets_ db = size * 2 ^ k ∧
       length (buckets_ db) = size * 2 ^ k.
Proof.
  intros Hsize Hvalid Hrun.
  destruct (run_calls_buckets _ _ _ Hrun) as (k & Hk & Hnb).
  change (no_buckets_ (new_map_database size f)) with size in Hnb.
  exists k. split; [done|]. split; [done|]. rewrite <-Hnb.
  pose proof (run_calls_wf _ _ _ (wf_new size f Hsize) Hvalid Hrun) as [Hok _ _].
  by eapply array_length.
Qed.

Lemma bucket_count_doubles_witness :
  ∃ db,
    run_calls (new_map_database 2 1) small_table_calls = Some db ∧
    ∃ k, k ≤ 3 ∧ no_buckets_ db = 2 * 2 ^ k ∧
         length (buckets_ db) = 2 * 2 ^ k.
Proof.
  eexists. split; [vm_compute; reflexivity|].
  apply (bucket_count_doubles 2 1 small_table_calls);
    [lia|by_decide|vm_compute; reflexivity].
Defined.

(** X15. A table built with no buckets cannot be used: [lookup], [insert]
    and [insert_prefix] all take a remainder by the bucket count, which is
    zero and stays zero when doubled. *)
Theorem zero_buckets_fault (f : double) (h p : STORAGE_T) (str : buffer) (n : nat) :
  lookup (new_map_database 0 f) h = None ∧
  insert (new_map_database 0 f) h str n = None ∧
  insert_prefix (new_map_database 0 f) h p str n = None.
Proof.
  unfold lookup, insert, insert_prefix, grow_if_needed, rehash, new_map_database.
  cbn [no_buckets_ next_resize_ no_items_ buckets_ max_load_factor_].
  by rewrite resize_threshold_zero.
Qed.

(** X16. In every reachable state [insert] completes on every C string,
    and [insert_prefix] completes exactly when the prefix hash is stored:
    with a prefix that was never inserted the call fails its assertion,
    whatever the other arguments. *)
Theorem calls_complete db h p str n :
  reachable db → valid_input str n →
  is_Some (insert db h str n) ∧
  (is_Some (insert_prefix db h p str n) ↔ is_Some (lookup db p)).
Proof.
  intros Hwf%reachable_wf Hvalid.
  assert (∀ str n, valid_input str n → is_Some (insert db h str n)) as Hins.
  { clear str n Hvalid. intros str n Hvalid.
    destruct (lookup db h) as [buf|] eqn:Hlook.
    - destruct (lookup_c_str db h buf Hwf Hlook) as (S & _ & ->).
      destruct (insert_stored_status db h str n S Hwf Hlook Hvalid)
        as (db1 & _ & ->). by eexists.
    - apply lookup_None in Hlook; [|done].
      destruct (insert_fresh db h str n Hwf Hlook Hvalid)
        as (db1 & db' & _ & -> & _). by eexists. }
  split; [by apply Hins|].
  destruct (lookup db p) as [buf|] eqn:Hp.
  - destruct (lookup_c_str db p buf Hwf Hp) as (X & HX & ->).
    rewrite (insert_prefix_as_insert db h p X str n Hwf Hp).
    split; [by eauto|]. intros _. by apply Hins, valid_input_app.
  - rewrite (insert_prefix_no_prefix db h p str n Hwf Hp).
    split; by intros [? [=]].
Qed.

Lemma calls_complete_witness :
  ∃ db,
    run_calls (new_map_database 1 1) prefix_table_calls = Some db ∧
    is_Some (insert db 7 (bytes "abc") 3) ∧
    (is_Some (insert_prefix db 7 1 (bytes "abc") 3) ↔ is_Some (lookup db 1)) ∧
    (is_Some (insert_prefix db 7 9 (bytes "abc") 3) ↔ is_Some (lookup db 9)) ∧
    lookup db 9 = None.
Proof.
  eexists. split; [vm_compute; reflexivity|].
  match goal with |- is_Some (insert ?d _ _ _) ∧ _ =>
    assert (reachable d) as Hreach
  end.
  { exists 1, 1%double, prefix_table_calls.
    split; [lia|]. split; [by_decide|vm_compute; reflexivity]. }
  assert (valid_input (bytes "abc") 3) as Hvalid by by_decide.
  split; [exact (proj1 (calls_complete _ 7 1 _ _ Hreach Hvalid))|].
  split; [exact (proj2 (calls_complete _ 7 1 _ _ Hreach Hvalid))|].
  split; [exact (proj2 (calls_complete _ 7 9 _ _ Hreach Hvalid))|].
  vm_compute; reflexivity.
Defined.

(** X17. [strequal(prefix, str, length, other)] answers true exactly when
    the prefix followed by the first [length] bytes of [str] is an initial
    part of [other]; it never builds the concatenation. *)
Theorem strequal_tests_initial_part (s t str S : buffer) (n : nat) :
  nul_free s → valid_input str n → nul_free S →
  strequal (s ++ NUL :: t) str n (c_str S)
  = Some (bool_decide ((s ++ take n str) `prefix_of` S)).
Proof.
  intros Hs Hvalid HS. rewrite strequal_strncmp by done.
  destruct (valid_input_app s str n Hs Hvalid) as [Hlen Hfree].
  unfold c_str. rewrite strncmp_prefix by done.
  by rewrite take_app_valid.
Qed.

Lemma strequal_tests_initial_part_witness :
  strequal (bytes "ab" ++ NUL :: []) (bytes "cdef") 2 (c_str (bytes "abcd"))
  = Some (bool_decide ((bytes "ab" ++ take 2 (bytes "cdef")) `prefix_of` bytes "abcd")) ∧
  strequal (bytes "ab" ++ NUL :: []) (bytes "cdef") 2 (c_str (bytes "abcd"))
  = Some true.
Proof.
  split; [|reflexivity].
  apply (strequal_tests_initial_part (bytes "ab") [] (bytes "cdef") (bytes "abcd") 2);
    by_decide.
Defined.
